(** * goa-v1: JWT security middleware and API design DSL

    A shallow embedding of [middleware/security/jwt/jwt.go] and of the part
    of the design DSL exercised by [design/apidsl/resource_test.go] and the
    API test-suite, together with the properties stated about them. *)

From Stdlib Require Import ZArith NArith Ascii String List Bool Lia Sorted Permutation.
From stdpp Require Import base option list gmap strings fin_maps.

Set Warnings "-register-all".

Local Open Scope string_scope.

(** ** Go strings

    A Go [string] is a sequence of bytes; [String.string] is a list of
    8-bit [ascii] values, and comparison is byte-wise in both. *)
Module GoStrings.

(** [unicode.ToLower] on one byte of ASCII: 'A'..'Z' move to 'a'..'z'. *)
Definition lower_byte (c : ascii) : ascii :=
  let n := N_of_ascii c in
  if ((65 <=? n) && (n <=? 90))%N then ascii_of_N (n + 32) else c.

(** [strings.ToLower], on the bytes of the string. Bytes above 0x7f are kept:
    Go maps whole runes there, and no rune outside ASCII lower-cases to a
    letter of ["bearer "], the only text the result is compared with. *)
Fixpoint ToLower (s : string) : string :=
  match s with
  | EmptyString => EmptyString
  | String c rest => String (lower_byte c) (ToLower rest)
  end.

(** [strings.HasPrefix(s, prefix)]. *)
Definition HasPrefix (s prefix : string) : bool := String.prefix prefix s.

(** [strings.Split(s, sep)] for a separator of one byte: the pieces between
    the occurrences of [sep]; a string without [sep] (the empty one too) is
    returned as its only piece. *)
Fixpoint Split (s : string) (sep : ascii) : list string :=
  match s with
  | EmptyString => [EmptyString]
  | String c rest =>
      if Ascii.eqb c sep then EmptyString :: Split rest sep
      else match Split rest sep with
           | [] => [String c EmptyString]
           | piece :: pieces => String c piece :: pieces
           end
  end.

(** [sort.Strings]: ascending byte-wise order (insertion sort; the order of
    equal strings cannot be observed). *)
Fixpoint insert_sorted (x : string) (l : list string) : list string :=
  match l with
  | [] => [x]
  | y :: l' => if String.leb x y then x :: y :: l' else y :: insert_sorted x l'
  end.

Definition sort_Strings (l : list string) : list string :=
  foldr insert_sorted [] l.

(** The text of [rest] before its first byte [sep] (all of it when there is
    none). *)
Fixpoint up_to (sep : ascii) (rest : string) : string :=
  match rest with
  | EmptyString => EmptyString
  | String c rest' => if Ascii.eqb c sep then EmptyString else String c (up_to sep rest')
  end.

(** The text of [rest] before its first byte satisfying [stop]. *)
Fixpoint up_to_first (stop : ascii -> bool) (rest : string) : string :=
  match rest with
  | EmptyString => EmptyString
  | String c rest' => if stop c then EmptyString else String c (up_to_first stop rest')
  end.

(** White space as Go's [unicode.IsSpace] has it on ASCII: tab, line feed,
    vertical tab, form feed, carriage return and the space. *)
Definition is_whitespace (c : ascii) : bool :=
  let n := N_of_ascii c in
  (((9 <=? n) && (n <=? 13)) || (n =? 32))%N.

Definition space : ascii := " "%char.

Definition tab : string := String (ascii_of_N 9) EmptyString.

(** Whether the byte [sep] occurs in [s] ([strings.IndexByte(s, sep) >= 0]). *)
Fixpoint has_byte (sep : ascii) (s : string) : bool :=
  match s with
  | EmptyString => false
  | String c rest => Ascii.eqb c sep || has_byte sep rest
  end.

(** [s[n:]] *)
Fixpoint drop_bytes (n : nat) (s : string) : string :=
  match n, s with
  | O, _ => s
  | S n', String _ rest => drop_bytes n' rest
  | S _, EmptyString => EmptyString
  end.

(** [strings.Join(elems, sep)] *)
Fixpoint Join (elems : list string) (sep : string) : string :=
  match elems with
  | [] => EmptyString
  | a :: rest =>
      match rest with
      | [] => a
      | _ :: _ => a ++ sep ++ Join rest sep
      end
  end.

End GoStrings.

Import GoStrings.

(** ** Results of Go calls

    A Go function returning [(T, error)] either yields a value, yields an
    error, or does not return at all because the runtime panics (an index out
    of range, a nil pointer dereference). *)
Inductive res (E A : Type) : Type :=
| Ok (a : A)
| Err (e : E)
| Crash.
Arguments Ok {E A} a.
Arguments Err {E A} e.
Arguments Crash {E A}.

(** ** The JWT middleware ([middleware/security/jwt/jwt.go]) *)
Module JWT.

(** A JSON value as [encoding/json] decodes it into an [interface{}]:
    [nil], [bool], [float64] (kept as its literal), [string],
    [[]interface{}] and [map[string]interface{}]. *)
Inductive jvalue : Type :=
| JNull
| JBool (b : bool)
| JNumber (lit : string)
| JString (s : string)
| JArray (items : list jvalue)
| JObject (fields : list (string * jvalue)).

(** [jwt.Claims]: the [jwt.MapClaims] that [jwt.Parse] builds, or any other
    implementation of the interface. *)
Inductive Claims : Type :=
| MapClaims (m : gmap string jvalue)
| OtherClaims.

(** [*jwt.Token], as far as the middleware reads it: [Method.Alg()] (the
    signing method is looked up from the header's ["alg"]), the claims and
    the [Valid] flag. *)
Record Token : Type := mkToken {
  Raw : string;
  Alg : string;
  TokenClaims : Claims;
  Valid : bool
}.

Record rsa_PublicKey : Type := { rsa_N : Z; rsa_E : Z }.
Record ecdsa_PublicKey : Type := { ecdsa_Curve : string; ecdsa_X : Z; ecdsa_Y : Z }.

(** The key a [jwt.Keyfunc] hands back to the library, an [interface{}]
    holding a [*rsa.PublicKey], a [*ecdsa.PublicKey] or a [[]byte]. *)
Inductive Key : Type :=
| RSAKey (k : rsa_PublicKey)
| ECDSAKey (k : ecdsa_PublicKey)
| HMACKey (k : string).

(** The dynamic type of the [validationKeys interface{}] given to [New]. *)
Inductive keys_value : Type :=
| VBytes (k : string)
| VBytesList (ks : list string)
| VString (s : string)
| VStringList (ss : list string)
| VRSA (k : rsa_PublicKey)
| VRSAList (ks : list rsa_PublicKey)
| VECDSA (k : ecdsa_PublicKey)
| VECDSAList (ks : list ecdsa_PublicKey)
| VOther (type_name : string).

(** Go [error] values met by the middleware: goa's structured error
    response, an [fmt.Errorf] error and the library's validation error. *)
Inductive error : Type :=
| ErrorResponse (Code : string) (Status : Z) (Detail : string)
    (Meta : gmap string (list string))
| Errorf (msg : string)
| ValidationError (text : string) (Inner : option error).

(** Modelled from the spec: [goa.NewErrorClass], of the root package, is not
    among the sources; an error class builds "a structured error of kind
    [jwt_security_error] with HTTP status 401 and a human-readable message;
    optional structured fields". *)
Definition NewErrorClass (code : string) (status : Z)
    (message : string) (keyvals : list (string * list string)) : error :=
  ErrorResponse code status message (list_to_map keyvals).

(** [var ErrJWTError = goa.NewErrorClass("jwt_security_error", 401)] *)
Definition ErrJWTError : string -> list (string * list string) -> error :=
  NewErrorClass "jwt_security_error" 401.

(** Modelled from the spec: the request context of the root package, not
    among the sources: it "carries the action's required scope list" and,
    after the middleware, "the validated token ... under a private key". *)
Record Context : Type := mkContext {
  ContextRequiredScopes : list string;
  ContextJWT : option Token
}.

Definition WithJWT (ctx : Context) (t : option Token) : Context :=
  {| ContextRequiredScopes := ContextRequiredScopes ctx; ContextJWT := t |}.

(** [*goa.JWTSecurity]: where the token is and under which name. *)
Record JWTSecurity : Type := mkScheme { In : string; Name : string }.

(** [*http.Request]: header values by canonical key, and the parsed query. *)
Record Request : Type := mkRequest {
  Header : gmap string (list string);
  Query : gmap string (list string)
}.

(** What the surrounding packages supply: the standard library ([net/http]
    header canonicalisation, [%q] quoting and the response writer), goa's
    location constants and [ErrorResponse.Error], and the JWT library as a
    black-box verifier: [ParseUnverified] decodes a compact token or fails
    (with whatever token it built), [Verify] checks claims and signature of a
    decoded token against a key and returns [None] when both hold. *)
Record Extern : Type := mkExtern {
  ResponseWriter : Type;
  CanonicalMIMEHeaderKey : string -> string;
  Quote : string -> string;
  LocHeader : string;
  LocQuery : string;
  ErrorResponse_Error : string -> Z -> string -> string;
  ParseUnverified : string -> (option Token * error) + Token;
  Verify : Token -> Key -> option error
}.

Section Middleware.

Variable X : Extern.

(** [err.Error()] *)
Fixpoint Error (e : error) : string :=
  match e with
  | ErrorResponse code status detail _ => ErrorResponse_Error X code status detail
  | Errorf msg => msg
  | ValidationError text inner =>
      match inner with
      | Some e' => Error e'
      | None => if String.eqb text EmptyString then "token is invalid" else text
      end
  end.

(** A [goa.Handler] called on a context, a response writer and a request
    returns an error or [nil], unless it panics. *)
Definition Handler : Type :=
  Context -> ResponseWriter X -> Request -> res error unit.

Definition Middleware : Type := Handler -> Handler.

(** [req.Header.Get(key)]: the first value under the canonical key, the empty string
    when there is none. *)
Definition Header_Get (req : Request) (key : string) : string :=
  match Header req !! CanonicalMIMEHeaderKey X key with
  | Some (v :: _) => v
  | _ => EmptyString
  end.

(** [req.URL.Query().Get(key)] *)
Definition Query_Get (req : Request) (key : string) : string :=
  match Query req !! key with
  | Some (v :: _) => v
  | _ => EmptyString
  end.

(** [jwt.Parse(tokenString, keyFunc)]: decode, ask [keyFunc] for the key,
    verify with it; the token comes back with the error, and with [Valid]
    set when there is none. *)
Definition jwt_Parse (tokenString : string) (keyFunc : Token -> Key + error)
    : option Token * option error :=
  match ParseUnverified X tokenString with
  | inl (t, e) => (t, Some e)
  | inr t =>
      match keyFunc t with
      | inr e =>
          (Some t, Some match e with
                        | ValidationError _ _ => e
                        | _ => ValidationError EmptyString (Some e)
                        end)
      | inl key =>
          match Verify X t key with
          | Some e => (Some t, Some e)
          | None => (Some (mkToken (Raw t) (Alg t) (TokenClaims t) true), None)
          end
      end
  end.

Definition extractTokenFromHeader (schemeName : string) (req : Request)
    : res error string :=
  let val := Header_Get req schemeName in
  if String.eqb val EmptyString then
    Err (ErrJWTError ("missing header " ++ Quote X schemeName) [])
  else if negb (HasPrefix (ToLower val) "bearer ") then
    Err (ErrJWTError ("invalid or malformed " ++ Quote X val
                      ++ " header, expected 'Bearer JWT-token...'") [])
  else
    match Split val space with
    | _ :: incomingToken :: _ => Ok incomingToken
    | _ => Crash
    end.

Definition extractTokenFromQueryParam (schemeName : string) (req : Request)
    : res error string :=
  let incomingToken := Query_Get req schemeName in
  if String.eqb incomingToken EmptyString then
    Err (ErrJWTError ("missing parameter " ++ Quote X schemeName) [])
  else Ok incomingToken.

(** [validScopeClaimKeys]: the claims under which scopes may be found. *)
Definition validScopeClaimKeys : list string := ["scope"; "scopes"].

(** The body of the [case string] loop of [parseClaimScopes]. *)
Definition add_scope (acc : gmap string bool * list string) (scope : string)
    : gmap string bool * list string :=
  (<[scope := true]> (fst acc), (snd acc ++ [scope])%list).

(** The body of the [case []interface{}] loop: only strings are kept. *)
Definition add_item (acc : gmap string bool * list string) (scope : jvalue)
    : gmap string bool * list string :=
  match scope with
  | JString val => add_scope acc val
  | _ => acc
  end.

(** [%T] of a claim value. *)
Definition type_name_of (v : jvalue) : string :=
  match v with
  | JNull => "<nil>"
  | JBool _ => "bool"
  | JNumber _ => "float64"
  | JString _ => "string"
  | JArray _ => "[]interface {}"
  | JObject _ => "map[string]interface {}"
  end.

(** The [for _, k := range validScopeClaimKeys] loop of [parseClaimScopes]:
    a claim that is absent or [nil] is passed over, the first other one is
    parsed and ends the loop ([break]), or ends the function with an error. *)
Fixpoint scan_claims (claims : gmap string jvalue) (keys : list string)
    (acc : gmap string bool * list string)
    : res error (gmap string bool * list string) :=
  match keys with
  | [] => Ok acc
  | k :: keys' =>
      match claims !! k with
      | None | Some JNull => scan_claims claims keys' acc
      | Some (JString scopes) => Ok (foldl add_scope acc (Split scopes space))
      | Some (JArray scopes) => Ok (foldl add_item acc scopes)
      | Some scopes =>
          Err (Errorf ("unsupported scope format in incoming JWT claim, was type "
                       ++ type_name_of scopes))
      end
  end.

(** [parseClaimScopes(token)]; reading [token.Claims] through a [nil]
    token panics. *)
Definition parseClaimScopes (token : option Token)
    : res error (gmap string bool * list string) :=
  match token with
  | None => Crash
  | Some t =>
      match TokenClaims t with
      | OtherClaims => Err (Errorf "unsupport claims shape")
      | MapClaims claims =>
          match scan_claims claims validScopeClaimKeys (∅, []) with
          | Ok (scopesInClaim, scopesInClaimList) =>
              Ok (scopesInClaim, sort_Strings scopesInClaimList)
          | Err e => Err e
          | Crash => Crash
          end
      end
  end.

(** [partitionKeys] sorts keys by their type. *)
Definition partitionKeys (k : keys_value)
    : list rsa_PublicKey * list ecdsa_PublicKey * list string :=
  match k with
  | VBytes typed => ([], [], [typed])
  | VBytesList typed => ([], [], typed)
  | VString typed => ([], [], [typed])
  | VStringList typed => ([], [], foldl (fun hmacKeys s => (hmacKeys ++ [s])%list) [] typed)
  | VRSA typed => ([typed], [], [])
  | VRSAList typed => (typed, [], [])
  | VECDSA typed => ([], [typed], [])
  | VECDSAList typed => ([], typed, [])
  | VOther _ => ([], [], [])
  end.

(** The [jwt.Keyfunc] closure shared by the three validators: the key is
    handed out only to a token whose algorithm starts with [algo]. *)
Definition keyFunc (algo : string) (key : Key) (token : Token) : Key + error :=
  if negb (HasPrefix (Alg token) algo) then
    inr (ErrJWTError ("Unexpected signing method: " ++ Alg token) [])
  else inl key.

(** The loop shared by [validateRSAKeys], [validateECDSAKeys] and
    [validateHMACKeys], whose bodies differ in the type of the keys only:
    [token, err] hold the result of the latest [jwt.Parse], and the first
    parse without error returns. *)
Fixpoint validateKeys {K : Type} (wrap : K -> Key) (keys : list K)
    (algo incomingToken : string) (cur : option Token * option error)
    : option Token * option error :=
  match keys with
  | [] => cur
  | key :: keys' =>
      let r := jwt_Parse incomingToken (keyFunc algo (wrap key)) in
      match snd r with
      | None => r
      | Some _ => validateKeys wrap keys' algo incomingToken r
      end
  end.

Definition validateRSAKeys (rsaKeys : list rsa_PublicKey) (algo incomingToken : string)
    : option Token * option error :=
  validateKeys RSAKey rsaKeys algo incomingToken (None, None).

Definition validateECDSAKeys (ecdsaKeys : list ecdsa_PublicKey) (algo incomingToken : string)
    : option Token * option error :=
  validateKeys ECDSAKey ecdsaKeys algo incomingToken (None, None).

Definition validateHMACKeys (hmacKeys : list string) (algo incomingToken : string)
    : option Token * option error :=
  validateKeys HMACKey hmacKeys algo incomingToken (None, None).

(** The verification step of the handler built by [New]: [token], [err] and
    [validated] start as [nil], [nil] (extraction succeeded) and [false], and
    each non-empty bucket is tried while nothing has validated. *)
Definition verifyToken (rsaKeys : list rsa_PublicKey) (ecdsaKeys : list ecdsa_PublicKey)
    (hmacKeys : list string) (incomingToken : string) : option Token * option error :=
  let '(token, err, validated) := (None, None, false) in
  let '(token, err, validated) :=
    if (0 <? length rsaKeys)%nat then
      let '(token, err) := validateRSAKeys rsaKeys "RS" incomingToken in
      (token, err, bool_decide (err = None))
    else (token, err, validated) in
  let '(token, err, validated) :=
    if negb validated && (0 <? length ecdsaKeys)%nat then
      let '(token, err) := validateECDSAKeys ecdsaKeys "ES" incomingToken in
      (token, err, bool_decide (err = None))
    else (token, err, validated) in
  let '(token, err) :=
    if negb validated && (0 <? length hmacKeys)%nat then
      validateHMACKeys hmacKeys "HS" incomingToken
    else (token, err) in
  (token, err).

(** The extraction step of the handler built by [New]: the token is read
    where [scheme.In] says. *)
Definition extractToken (scheme : JWTSecurity) (req : Request) : res error string :=
  if String.eqb (In scheme) (LocHeader X) then
    extractTokenFromHeader (Name scheme) req
  else if String.eqb (In scheme) (LocQuery X) then
    extractTokenFromQueryParam (Name scheme) req
  else
    Err (Errorf ("whoops, security scheme with location (in) "
                 ++ Quote X (In scheme) ++ " not supported")).

(** One call of the handler that the middleware returned by [New] builds
    around [nextHandler], with the three buckets that [New] computed: what the
    call returns, and the value that the variable [nextHandler] holds after
    it. [nextHandler] is the parameter of the enclosing function literal, which
    the handler captures: the assignment [nextHandler =
    validationFunc(nextHandler)] of an admitted request is seen by the calls
    that follow. The call of [goa.LogError] before a scope error is returned
    writes to the log only and is left out. *)
Definition handle_call (rsaKeys : list rsa_PublicKey) (ecdsaKeys : list ecdsa_PublicKey)
    (hmacKeys : list string) (validationFunc : option Middleware)
    (scheme : JWTSecurity) (nextHandler : Handler)
    (ctx : Context) (rw : ResponseWriter X) (req : Request)
    : res error unit * Handler :=
  match extractToken scheme req with
  | Crash => (Crash, nextHandler)
  | Err err => (Err err, nextHandler)
  | Ok incomingToken =>
      let '(token, err) := verifyToken rsaKeys ecdsaKeys hmacKeys incomingToken in
      match err with
      | Some err =>
          (Err (ErrJWTError ("JWT validation failed: " ++ Error err) []), nextHandler)
      | None =>
          match parseClaimScopes token with
          | Crash => (Crash, nextHandler)
          | Err err => (Err (ErrJWTError (Error err) []), nextHandler)
          | Ok (scopesInClaim, scopesInClaimList) =>
              let requiredScopes := ContextRequiredScopes ctx in
              if forallb (fun scope => default false (scopesInClaim !! scope))
                   requiredScopes
              then
                let ctx := WithJWT ctx token in
                let nextHandler :=
                  match validationFunc with
                  | Some f => f nextHandler
                  | None => nextHandler
                  end in
                (nextHandler ctx rw req, nextHandler)
              else
                (Err (ErrJWTError
                        "authorization failed: required 'scope' or 'scopes' not present in JWT claim"
                        [("required", requiredScopes); ("scopes", scopesInClaimList)]),
                 nextHandler)
          end
      end
  end.

(** What a call of the handler returns while its variable holds
    [nextHandler]: for the handler just built, the handler given to the
    middleware. *)
Definition handle (rsaKeys : list rsa_PublicKey) (ecdsaKeys : list ecdsa_PublicKey)
    (hmacKeys : list string) (validationFunc : option Middleware)
    (scheme : JWTSecurity) (nextHandler : Handler) : Handler :=
  fun ctx rw req =>
    fst (handle_call rsaKeys ecdsaKeys hmacKeys validationFunc scheme nextHandler ctx rw req).

(** [New(validationKeys, validationFunc, scheme)] *)
Definition New (validationKeys : keys_value) (validationFunc : option Middleware)
    (scheme : JWTSecurity) : Middleware :=
  let '(rsaKeys, ecdsaKeys, hmacKeys) := partitionKeys validationKeys in
  fun nextHandler => handle rsaKeys ecdsaKeys hmacKeys validationFunc scheme nextHandler.

(** The value of the captured variable after a call of the handler of
    [New(validationKeys, validationFunc, scheme)] made while it holds
    [nextHandler]. *)
Definition New_captured (validationKeys : keys_value) (validationFunc : option Middleware)
    (scheme : JWTSecurity) (nextHandler : Handler)
    (ctx : Context) (rw : ResponseWriter X) (req : Request) : Handler :=
  let '(rsaKeys, ecdsaKeys, hmacKeys) := partitionKeys validationKeys in
  snd (handle_call rsaKeys ecdsaKeys hmacKeys validationFunc scheme nextHandler ctx rw req).

End Middleware.

End JWT.

(** ** The design DSL and its engine

    The packages [design], [design/apidsl] and [dslengine] are exercised by
    the test-suites but are not among the sources; what follows is their
    behaviour as the specification words it, for the API and resource roots
    and the builders [Description], [Title], [Version], [BasePath], [Params]
    with [Param], [Parent], [DefaultMedia], [CanonicalActionName] and
    [Action]. A DSL body, a callback in Go, is the list of the builder calls
    it makes. *)
Module Design.

(** Modelled from the spec: the [design] package's data types are missing;
    "[Type] is either a primitive ([String], [Integer], [Boolean], [Number],
    [DateTime], [UUID], [Any]), ... an array-of-type, a
    hash-of-key-type-to-value-type". *)
Inductive DataType : Type :=
| String | Integer | Boolean | Number | DateTime | UUID | Any
| ArrayOf (elem : DataType)
| HashOf (key value : DataType).

#[global] Instance DataType_eq_dec : EqDecision DataType.
Proof. unfold EqDecision, Decision. decide equality. Defined.

(** Modelled from the spec: the attribute definition is missing; "attribute
    = {type, description, default, validations}", of which base parameters
    use the type and the description. *)
Record AttributeDefinition : Type := mkAttribute {
  attr_Type : DataType;
  attr_Description : string
}.

#[global] Instance AttributeDefinition_eq_dec : EqDecision AttributeDefinition.
Proof. unfold EqDecision, Decision. decide equality; [apply string_dec|apply DataType_eq_dec]. Defined.

(** Modelled from the spec: the API definition is missing; "name,
    description, title, version, ..., base path, base params (Attribute
    map)". *)
Record APIDefinition : Type := mkAPI {
  api_Name : string;
  api_Description : string;
  api_Title : string;
  api_Version : string;
  api_BasePath : string;
  api_Params : gmap string AttributeDefinition
}.

(** Modelled from the spec: the resource definition is missing; "name,
    description, parent-name (string reference), base path, base params,
    default media-type identifier, default view name, canonical action name
    (string reference), actions"; the full base path is the field computed
    when the resource is finalized. *)
Record ResourceDefinition : Type := mkResource {
  res_Name : string;
  res_Description : string;
  res_ParentName : string;
  res_BasePath : string;
  res_Params : gmap string AttributeDefinition;
  res_MediaType : string;
  res_DefaultViewName : string;
  res_CanonicalActionName : string;
  res_Actions : list string;
  res_FullPath : string
}.

(** Modelled from the spec: the error kinds of the accumulator, section 7,
    with the three checks the text names without a kind of their own: the API
    root that [Run] asserts, the required name, and the coverage of
    placeholders by params. *)
Inductive DslError : Type :=
| DuplicateDefinition (kind name : string)
| UnresolvedReference (owner reference : string)
| ParamConflict (resource placeholder : string)
| MissingRoot
| NameRequired (kind : string)
| UncoveredPlaceholder (owner placeholder : string)
| DuplicateAction (resource action : string).

#[global] Instance DslError_eq_dec : EqDecision DslError.
Proof. unfold EqDecision, Decision. decide equality; apply string_dec. Defined.

(** [Param(name, type, description)] inside [Params]. *)
Record ParamCall : Type := Param {
  param_name : string;
  param_type : DataType;
  param_description : string
}.

(** The builder calls of an [API] body. *)
Inductive api_call : Type :=
| APIDescription (d : string)
| Title (t : string)
| Version (v : string)
| APIBasePath (path : string)
| APIParams (params : list ParamCall).

(** The builder calls of a [Resource] body. *)
Inductive resource_call : Type :=
| Description (d : string)
| Parent (p : string)
| BasePath (path : string)
| Params (params : list ParamCall)
| DefaultMedia (identifier view : string)
| CanonicalActionName (a : string)
| Action (name : string).

(** The process-wide state: the API root if one was declared, the resources
    in declaration order, and the accumulated errors. *)
Record state : Type := mkState {
  Design : option APIDefinition;
  Resources : list ResourceDefinition;
  Errors : list DslError
}.

(** Modelled from the spec: "[Reset] returns the process-wide graph to an
    empty state" and installs "a fresh accumulator". *)
Definition Reset : state := mkState None [] [].

Definition add_params (params : list ParamCall) (m : gmap string AttributeDefinition)
    : gmap string AttributeDefinition :=
  foldl (fun m p => <[param_name p := mkAttribute (param_type p) (param_description p)]> m)
        m params.

(** Each builder "routes its effect to the appropriate field" of the entity
    being built. *)
Definition run_api_call (a : APIDefinition) (c : api_call) : APIDefinition :=
  match c with
  | APIDescription d =>
      mkAPI (api_Name a) d (api_Title a) (api_Version a) (api_BasePath a) (api_Params a)
  | Title t =>
      mkAPI (api_Name a) (api_Description a) t (api_Version a) (api_BasePath a) (api_Params a)
  | Version v =>
      mkAPI (api_Name a) (api_Description a) (api_Title a) v (api_BasePath a) (api_Params a)
  | APIBasePath path =>
      mkAPI (api_Name a) (api_Description a) (api_Title a) (api_Version a) path (api_Params a)
  | APIParams params =>
      mkAPI (api_Name a) (api_Description a) (api_Title a) (api_Version a) (api_BasePath a)
            (add_params params (api_Params a))
  end.

Definition run_resource_call (r : ResourceDefinition) (c : resource_call)
    : ResourceDefinition :=
  match c with
  | Description d =>
      mkResource (res_Name r) d (res_ParentName r) (res_BasePath r) (res_Params r)
        (res_MediaType r) (res_DefaultViewName r) (res_CanonicalActionName r)
        (res_Actions r) (res_FullPath r)
  | Parent p =>
      mkResource (res_Name r) (res_Description r) p (res_BasePath r) (res_Params r)
        (res_MediaType r) (res_DefaultViewName r) (res_CanonicalActionName r)
        (res_Actions r) (res_FullPath r)
  | BasePath path =>
      mkResource (res_Name r) (res_Description r) (res_ParentName r) path (res_Params r)
        (res_MediaType r) (res_DefaultViewName r) (res_CanonicalActionName r)
        (res_Actions r) (res_FullPath r)
  | Params params =>
      mkResource (res_Name r) (res_Description r) (res_ParentName r) (res_BasePath r)
        (add_params params (res_Params r))
        (res_MediaType r) (res_DefaultViewName r) (res_CanonicalActionName r)
        (res_Actions r) (res_FullPath r)
  | DefaultMedia identifier view =>
      mkResource (res_Name r) (res_Description r) (res_ParentName r) (res_BasePath r)
        (res_Params r) identifier view (res_CanonicalActionName r)
        (res_Actions r) (res_FullPath r)
  | CanonicalActionName a =>
      mkResource (res_Name r) (res_Description r) (res_ParentName r) (res_BasePath r)
        (res_Params r) (res_MediaType r) (res_DefaultViewName r) a
        (res_Actions r) (res_FullPath r)
  | Action name =>
      mkResource (res_Name r) (res_Description r) (res_ParentName r) (res_BasePath r)
        (res_Params r) (res_MediaType r) (res_DefaultViewName r)
        (res_CanonicalActionName r) (res_Actions r ++ [name])%list (res_FullPath r)
  end.

(** A body that is [nil] makes no call. *)
Definition calls {C : Type} (dsl : option (list C)) : list C :=
  match dsl with Some body => body | None => [] end.

(** Modelled from the spec: "a resource with no declared default media type
    defaults to [text/plain]". *)
Definition NewResourceDefinition (name : string) : ResourceDefinition :=
  mkResource name EmptyString EmptyString EmptyString ∅ "text/plain"
    EmptyString EmptyString [] EmptyString.

Definition find_resource (name : string) (resources : list ResourceDefinition)
    : option ResourceDefinition :=
  List.find (fun r => String.eqb (res_Name r) name) resources.

(** Modelled from the spec: [API(name, dsl)]; "insertion fails with
    [DuplicateDefinition] when a second top-level entity with the same
    kind+name is registered (e.g. two [API] calls with different names, or
    the same name twice)"; recording an error never aborts evaluation. *)
Definition API (name : string) (dsl : option (list api_call)) (st : state) : state :=
  match Design st with
  | Some _ =>
      mkState (Design st) (Resources st)
        (Errors st ++ [DuplicateDefinition "api" name])%list
  | None =>
      mkState
        (Some (foldl run_api_call
                 (mkAPI name EmptyString EmptyString EmptyString EmptyString ∅)
                 (calls dsl)))
        (Resources st) (Errors st)
  end.

(** Modelled from the spec: [Resource(name, dsl)], with the same uniqueness
    rule per kind and name. *)
Definition Resource (name : string) (dsl : option (list resource_call)) (st : state)
    : state :=
  match find_resource name (Resources st) with
  | Some _ =>
      mkState (Design st) (Resources st)
        (Errors st ++ [DuplicateDefinition "resource" name])%list
  | None =>
      mkState (Design st)
        (Resources st ++ [foldl run_resource_call (NewResourceDefinition name) (calls dsl)])%list
        (Errors st)
  end.

(** The name of a [:name] path segment. *)
Definition placeholder_of (segment : string) : option string :=
  match segment with
  | String.String ":" (String.String c rest) => Some (String.String c rest)
  | _ => None
  end.

(** The placeholders of a path, segment by segment. *)
Definition ExtractWildcards (path : string) : list string :=
  omap placeholder_of (Split path "/"%char).

(** Modelled from the spec: "a resource base path beginning with [//] is
    absolute". *)
Definition IsAbsolute (path : string) : bool := HasPrefix path "//".

(** Modelled from the spec: finalization derives the "resource full base
    path = API base path joined with resource base path, unless the latter is
    absolute"; it reads declared fields only, hence is idempotent. *)
Definition Finalize (api : option APIDefinition) (r : ResourceDefinition)
    : ResourceDefinition :=
  mkResource (res_Name r) (res_Description r) (res_ParentName r) (res_BasePath r)
    (res_Params r) (res_MediaType r) (res_DefaultViewName r) (res_CanonicalActionName r)
    (res_Actions r)
    (if IsAbsolute (res_BasePath r) then res_BasePath r
     else match api with
          | Some a => api_BasePath a ++ res_BasePath r
          | None => res_BasePath r
          end).

Definition api_params (api : option APIDefinition) : gmap string AttributeDefinition :=
  match api with Some a => api_Params a | None => ∅ end.

Definition api_wildcards (api : option APIDefinition) : list string :=
  match api with Some a => ExtractWildcards (api_BasePath a) | None => [] end.

(** Modelled from the spec: unless the resource path is absolute, "any
    placeholder present in both API and resource base paths must carry
    identical type and description". *)
Definition param_conflicts (api : option APIDefinition) (r : ResourceDefinition)
    : list DslError :=
  if IsAbsolute (res_BasePath r) then []
  else
    flat_map
      (fun w =>
         if bool_decide (w ∈ api_wildcards api)
            && negb (bool_decide (api_params api !! w = res_Params r !! w))
         then [ParamConflict (res_Name r) w] else [])
      (ExtractWildcards (res_BasePath r)).

(** Modelled from the spec: "base path placeholders are covered by combined
    (API+resource) params". *)
Definition uncovered_placeholders (api : option APIDefinition) (r : ResourceDefinition)
    : list DslError :=
  flat_map
    (fun w =>
       match res_Params r !! w, api_params api !! w with
       | None, None => [UncoveredPlaceholder (res_Name r) w]
       | _, _ => []
       end)
    (ExtractWildcards (res_BasePath r)).

Fixpoint duplicate_actions (resource : string) (actions : list string) : list DslError :=
  match actions with
  | [] => []
  | a :: rest =>
      (if bool_decide (a ∈ rest) then [DuplicateAction resource a] else [])
      ++ duplicate_actions resource rest
  end%list.

(** Modelled from the spec: "[Validate] on Resource checks: parent resolves;
    canonical action resolves; ...; base path placeholders are covered by
    combined (API+resource) params; unique action names", the conflict rule
    of the base paths, and the name, which a resource needs. The default media
    type is an identifier here, which needs no check. *)
Definition Validate (api : option APIDefinition) (resources : list ResourceDefinition)
    (r : ResourceDefinition) : list DslError :=
  ((if String.eqb (res_Name r) EmptyString then [NameRequired "resource"] else [])
   ++ (if String.eqb (res_ParentName r) EmptyString then []
       else match find_resource (res_ParentName r) resources with
            | Some _ => []
            | None => [UnresolvedReference (res_Name r) (res_ParentName r)]
            end)
   ++ (if String.eqb (res_CanonicalActionName r) EmptyString then []
       else if bool_decide (res_CanonicalActionName r ∈ res_Actions r) then []
       else [UnresolvedReference (res_Name r) (res_CanonicalActionName r)])
   ++ uncovered_placeholders api r
   ++ param_conflicts api r
   ++ duplicate_actions (res_Name r) (res_Actions r))%list.

(** Modelled from the spec: the API needs a name, and "a base path
    containing [:name] placeholders must have a matching entry in the owning
    entity's base params". *)
Definition ValidateAPI (a : APIDefinition) : list DslError :=
  ((if String.eqb (api_Name a) EmptyString then [NameRequired "api"] else [])
   ++ flat_map
        (fun w => match api_Params a !! w with
                  | Some _ => []
                  | None => [UncoveredPlaceholder (api_Name a) w]
                  end)
        (ExtractWildcards (api_BasePath a)))%list.

(** Modelled from the spec: [Run] "asserts the API root exists", finalizes
    the roots, "API first, then resources in declaration order", then runs
    each node's [Validate]; "all errors collected". *)
Definition Run (st : state) : state :=
  let finalized := List.map (Finalize (Design st)) (Resources st) in
  let root_errors :=
    match Design st with
    | None => [MissingRoot]
    | Some a => ValidateAPI a
    end in
  mkState (Design st) finalized
    (Errors st ++ root_errors
     ++ flat_map (Validate (Design st) finalized) finalized)%list.

(** A design: the top-level declarations the host code makes, in order. *)
Inductive declaration : Type :=
| DeclareAPI (name : string) (dsl : option (list api_call))
| DeclareResource (name : string) (dsl : option (list resource_call)).

Definition declare (st : state) (d : declaration) : state :=
  match d with
  | DeclareAPI name dsl => API name dsl st
  | DeclareResource name dsl => Resource name dsl st
  end.

(** The state after [Reset] and the declarations of a design. *)
Definition build (design : list declaration) : state :=
  foldl declare Reset design.

End Design.

Import JWT.

(** ** Vocabulary of the statements *)

(** The three buckets of keys and the algorithm prefix each one is pinned to
    by the calls in [New]. *)
Inductive bucket : Type := RSA | ECDSA | HMAC.

Definition bucket_prefix (b : bucket) : string :=
  match b with RSA => "RS" | ECDSA => "ES" | HMAC => "HS" end.

(** A parse succeeded when its error is [nil]. *)
Definition succeeded (r : option Token * option error) : bool :=
  match snd r with None => true | Some _ => false end.

Section Vocabulary.

Variable X : Extern.

(** One try: [jwt.Parse] of the token with the key function of a bucket. *)
Definition attempt (algo : string) (key : Key) (incomingToken : string)
    : option Token * option error :=
  jwt_Parse X incomingToken (keyFunc algo key).

(** All tries in the order of [New]: RSA keys, ECDSA keys, HMAC keys. *)
Definition attempts (rsaKeys : list rsa_PublicKey) (ecdsaKeys : list ecdsa_PublicKey)
    (hmacKeys : list string) (incomingToken : string)
    : list (option Token * option error) :=
  (List.map (fun k => attempt "RS" (RSAKey k) incomingToken) rsaKeys
   ++ List.map (fun k => attempt "ES" (ECDSAKey k) incomingToken) ecdsaKeys
   ++ List.map (fun k => attempt "HS" (HMACKey k) incomingToken) hmacKeys)%list.

(** A key validly verifies a token for a bucket: the token decodes, declares
    an algorithm of the bucket, and the library verifies it with the key. *)
Definition verifies (algo : string) (key : Key) (incomingToken : string) : Prop :=
  exists t, ParseUnverified X incomingToken = inr t /\
            HasPrefix (Alg t) algo = true /\ Verify X t key = None.

(** What the run of a bucket's validator returns. *)
Definition bucket_result (b : bucket) (rsaKeys : list rsa_PublicKey)
    (ecdsaKeys : list ecdsa_PublicKey) (hmacKeys : list string) (incomingToken : string)
    : option Token * option error :=
  match b with
  | RSA => validateRSAKeys X rsaKeys (bucket_prefix RSA) incomingToken
  | ECDSA => validateECDSAKeys X ecdsaKeys (bucket_prefix ECDSA) incomingToken
  | HMAC => validateHMACKeys X hmacKeys (bucket_prefix HMAC) incomingToken
  end.

Definition bucket_size (b : bucket) (rsaKeys : list rsa_PublicKey)
    (ecdsaKeys : list ecdsa_PublicKey) (hmacKeys : list string) : nat :=
  match b with
  | RSA => length rsaKeys
  | ECDSA => length ecdsaKeys
  | HMAC => length hmacKeys
  end.

(** The verification step of the middleware [New] builds for given keys. *)
Definition verifyWith (validationKeys : keys_value) (incomingToken : string)
    : option Token * option error :=
  let '(rsaKeys, ecdsaKeys, hmacKeys) := partitionKeys validationKeys in
  verifyToken X rsaKeys ecdsaKeys hmacKeys incomingToken.

(** The handler that is run on admission: [nextHandler], wrapped by the
    validation hook when there is one. *)
Definition wrapped (validationFunc : option (Middleware X)) (nextHandler : Handler X)
    : Handler X :=
  match validationFunc with
  | Some f => f nextHandler
  | None => nextHandler
  end.

(** A request as the handler receives it. *)
Definition served_request : Type := Context * ResponseWriter X * Request.

(** The value of the captured variable of the handler
    [New(validationKeys, validationFunc, scheme)(nextHandler)] after it has
    served the requests of [history], oldest first. *)
Definition captured (validationKeys : keys_value) (validationFunc : option (Middleware X))
    (scheme : JWTSecurity) (nextHandler : Handler X) (history : list served_request)
    : Handler X :=
  foldl (fun cur r => New_captured X validationKeys validationFunc scheme cur
                        (fst (fst r)) (snd (fst r)) (snd r))
        nextHandler history.

(** What this handler returns for a request made after those of
    [history]. *)
Definition serve (validationKeys : keys_value) (validationFunc : option (Middleware X))
    (scheme : JWTSecurity) (nextHandler : Handler X) (history : list served_request)
    (ctx : Context) (rw : ResponseWriter X) (req : Request) : res error unit :=
  New X validationKeys validationFunc scheme
    (captured validationKeys validationFunc scheme nextHandler history) ctx rw req.

(** A request passes the three checks of the handler: its token is
    extracted, verified without error, and its scopes parse and hold every
    required scope. *)
Definition admitted (validationKeys : keys_value) (scheme : JWTSecurity)
    (r : served_request) : bool :=
  match extractToken X scheme (snd r) with
  | Ok tok =>
      match verifyWith validationKeys tok with
      | (token, None) =>
          match parseClaimScopes token with
          | Ok (scopesInClaim, _) =>
              forallb (fun scope => default false (scopesInClaim !! scope))
                (ContextRequiredScopes (fst (fst r)))
          | _ => false
          end
      | _ => false
      end
  | _ => false
  end.

(** The number of admitted requests of a history. *)
Definition admissions (validationKeys : keys_value) (scheme : JWTSecurity)
    (history : list served_request) : nat :=
  length (List.filter (admitted validationKeys scheme) history).

End Vocabulary.

(** What every try returns for a token of another algorithm family. *)
Definition unexpected_method (t0 : Token) : option Token * option error :=
  (Some t0,
   Some (ValidationError EmptyString
           (Some (ErrorResponse "jwt_security_error" 401
                    ("Unexpected signing method: " ++ Alg t0) ∅)))).

(** The error of a failed authorization. *)
Definition scope_error (required scopes : list string) : error :=
  ErrorResponse "jwt_security_error" 401
    "authorization failed: required 'scope' or 'scopes' not present in JWT claim"
    (<["required" := required]> (<["scopes" := scopes]> ∅)).

(** The strings among the elements of a JSON list, in order. *)
Fixpoint strings_of (items : list jvalue) : list string :=
  match items with
  | [] => []
  | JString s :: items' => s :: strings_of items'
  | _ :: items' => strings_of items'
  end.

(** The scope set holding exactly the given scopes. *)
Definition scope_set (scopes : list string) : gmap string bool :=
  foldl (fun m scope => <[scope := true]> m) ∅ scopes.

(** The claim that [parseClaimScopes] stops at: the value under ["scope"]
    unless it is absent or [nil], else the value under ["scopes"] unless it
    is absent or [nil]. *)
Definition found_claim (claims : gmap string jvalue) : option jvalue :=
  match claims !! "scope" with
  | Some JNull | None =>
      match claims !! "scopes" with
      | Some JNull | None => None
      | Some v => Some v
      end
  | Some v => Some v
  end.

(** The scopes a claim value presents, when it has a supported shape. *)
Definition presented (v : jvalue) : option (list string) :=
  match v with
  | JString scopes => Some (Split scopes space)
  | JArray items => Some (strings_of items)
  | _ => None
  end.

Definition is_null (v : jvalue) : bool :=
  match v with JNull => true | _ => false end.

Definition only_duplicates (errors : list Design.DslError) : Prop :=
  forall e, List.In e errors -> exists kind name, e = Design.DuplicateDefinition kind name.

(** ** A concrete environment

    An instance of [Extern] on which the definitions compute: header keys are
    already canonical, the decoder is a table from compact tokens to decoded
    ones, and a key verifies a token when [good] says so. *)
Definition quote_mark : string := String (ascii_of_N 34) EmptyString.

Definition table_decode (table : list (string * Token)) (tokenString : string)
    : (option Token * error) + Token :=
  match List.find (fun entry => String.eqb (fst entry) tokenString) table with
  | Some entry => inr (snd entry)
  | None => inl (None, ValidationError "token contains an invalid number of segments" None)
  end.

Definition table_extern (table : list (string * Token)) (good : Token -> Key -> bool)
    : Extern :=
  {| ResponseWriter := unit;
     CanonicalMIMEHeaderKey := fun key => key;
     Quote := fun s => quote_mark ++ s ++ quote_mark;
     LocHeader := "header";
     LocQuery := "query";
     ErrorResponse_Error := fun _ _ detail => detail;
     ParseUnverified := table_decode table;
     Verify := fun t key =>
       if good t key then None
       else Some (ValidationError "signature is invalid" None) |}.

(** The same environment with another verifier. *)
Definition with_Verify (X : Extern) (verify : Token -> Key -> option error) : Extern :=
  {| ResponseWriter := ResponseWriter X;
     CanonicalMIMEHeaderKey := CanonicalMIMEHeaderKey X;
     Quote := Quote X;
     LocHeader := LocHeader X;
     LocQuery := LocQuery X;
     ErrorResponse_Error := ErrorResponse_Error X;
     ParseUnverified := ParseUnverified X;
     Verify := verify |}.

(** Scenario 6 of the test plan: an HS256 token with claims
    [{scope: "api:read api:write"}], the key set [["secret"]]. *)
Definition demo_token : Token :=
  mkToken "x.y.z" "HS256"
    (MapClaims {[ "scope" := JString "api:read api:write" ]}) false.

Definition demo_extern : Extern :=
  table_extern [("x.y.z", demo_token)]
    (fun t key => match key with HMACKey "secret" => true | _ => false end).

Definition demo_scheme : JWTSecurity := mkScheme "header" "Authorization".

Definition demo_request (value : string) : Request :=
  mkRequest {[ "Authorization" := [value] ]} ∅.

Definition demo_next : Handler demo_extern := fun _ _ _ => Ok tt.

(** A validation hook that hands the request on without its token, and
    refuses a request that carries none: in Go, a hook that returns an error
    when [ContextJWT(ctx)] is [nil] and otherwise calls the inner handler
    with [WithJWT(ctx, nil)]. *)
Definition consuming_hook : Middleware demo_extern :=
  fun h ctx rw req =>
    match ContextJWT ctx with
    | Some _ => h (mkContext (ContextRequiredScopes ctx) None) rw req
    | None => Err (Errorf "token already consumed")
    end.

(** A token with the given claims. *)
Definition token_with (claims : gmap string jvalue) : Token :=
  mkToken "h.c.s" "HS256" (MapClaims claims) true.



(** Scenarios 3 and 4 of the test plan, the contexts "with conflicting
    resource and API base params" and "with an absolute resource base path"
    of the API test-suite. *)
Definition api_with_params : Design.declaration :=
  Design.DeclareAPI "foo"
    (Some [Design.APIBasePath "/:accountID/:id";
           Design.APIParams [Design.Param "accountID" Design.Integer "the account ID";
                             Design.Param "id" Design.String "the widget ID"]]).

(** Scenario 3 with the resource declaring [accountID] as a string. *)
Definition conflicting_design : list Design.declaration :=
  [api_with_params;
   Design.DeclareResource "foo"
     (Some [Design.Params [Design.Param "accountID" Design.String "the account ID"];
            Design.BasePath "/:accountID"])].

(** ** The definitions on the scenarios of the test plan *)

Example Split_empty : Split EmptyString space = [EmptyString].
Proof. reflexivity. Qed.

Example Split_two : Split "Bearer x.y.z" space = ["Bearer"; "x.y.z"].
Proof. reflexivity. Qed.

Example sort_Strings_ex : sort_Strings ["b"; "a"; "c"; "a"] = ["a"; "a"; "b"; "c"].
Proof. reflexivity. Qed.

Example scenario_6 :
  New demo_extern (VString "secret") None demo_scheme demo_next
      (mkContext ["api:read"] None) tt (demo_request "Bearer x.y.z")
  = Ok tt.
Proof. vm_compute. reflexivity. Qed.

Example scenario_7 :
  New demo_extern (VString "secret") None demo_scheme demo_next
      (mkContext ["api:admin"] None) tt (demo_request "Bearer x.y.z")
  = Err (ErrJWTError
           "authorization failed: required 'scope' or 'scopes' not present in JWT claim"
           [("required", ["api:admin"]); ("scopes", ["api:read"; "api:write"])]).
Proof. vm_compute. reflexivity. Qed.

Example scenario_3 :
  Design.Errors (Design.Run (Design.build
    [api_with_params;
     Design.DeclareResource "foo" (Some [Design.BasePath "/:accountID"])]))
  = [Design.ParamConflict "foo" "accountID"].
Proof. vm_compute. reflexivity. Qed.

Example scenario_4 :
  Design.Errors (Design.Run (Design.build
    [api_with_params;
     Design.DeclareResource "foo"
       (Some [Design.Params [Design.Param "accountID" Design.Integer "the account ID"];
              Design.BasePath "//:accountID"])]))
  = [].
Proof. vm_compute. reflexivity. Qed.

Example scenario_5 :
  Design.Resources (Design.Run (Design.build [Design.DeclareResource "foo" None]))
  = [Design.NewResourceDefinition "foo"].
Proof. vm_compute. reflexivity. Qed.

(** ** Facts about the string functions *)

Lemma lower_byte_space c : lower_byte c = space -> c = space.
Proof.
  destruct c as [[] [] [] [] [] [] [] []]; vm_compute; congruence.
Qed.

Lemma prefix_app p s : String.prefix p s = true -> exists rest, s = p ++ rest.
Proof.
  revert s; induction p as [|a p IH]; intros s H.
  - exists s; reflexivity.
  - destruct s as [|b s]; simpl in H; [discriminate|].
    destruct (ascii_dec a b) as [->|]; [|discriminate].
    destruct (IH _ H) as [rest ->]. exists rest; reflexivity.
Qed.

Lemma app_prefix p rest : String.prefix p (p ++ rest) = true.
Proof.
  induction p as [|a p IH]; simpl; [destruct rest; reflexivity|].
  destruct (ascii_dec a a); [assumption|congruence].
Qed.

Lemma ToLower_app_inv a : forall s b,
  ToLower s = a ++ b ->
  exists p r, s = p ++ r /\ ToLower p = a /\ ToLower r = b.
Proof.
  induction a as [|c a IH]; intros s b H.
  - exists EmptyString, s; auto.
  - destruct s as [|d s]; simpl in H; [discriminate|].
    injection H as Hc Hs. destruct (IH _ _ Hs) as (p & r & -> & Hp & Hr).
    exists (String d p), r; simpl; rewrite Hc, Hp; auto.
Qed.

Lemma ToLower_app p r : ToLower (p ++ r) = ToLower p ++ ToLower r.
Proof. induction p as [|c p IH]; simpl; [reflexivity|now rewrite IH]. Qed.

Lemma Split_nonempty s sep : Split s sep <> [].
Proof.
  induction s as [|c s IH]; simpl; [discriminate|].
  destruct (Ascii.eqb c sep); [discriminate|].
  destruct (Split s sep); discriminate.
Qed.

(** The first piece of a split is the text before the first separator. *)
Lemma Split_head s sep : exists pieces, Split s sep = up_to sep s :: pieces.
Proof.
  induction s as [|c s [pieces IH]]; simpl; [eauto|].
  destruct (Ascii.eqb c sep); [eauto|]. rewrite IH; eauto.
Qed.

Lemma Split_app q rest sep :
  has_byte sep q = false ->
  Split (q ++ String sep rest) sep = q :: Split rest sep.
Proof.
  induction q as [|c q IH]; simpl; intros H.
  - now rewrite Ascii.eqb_refl.
  - apply orb_false_iff in H as [Hc Hq]. rewrite Hc, (IH Hq). reflexivity.
Qed.

(** A text that lower-cases to ["bearer "] is six bytes other than the space,
    then a space. *)
Lemma bearer_shape p :
  ToLower p = "bearer " ->
  exists q, p = q ++ String space EmptyString /\ has_byte space q = false.
Proof.
  intros H.
  destruct p as [|c1 [|c2 [|c3 [|c4 [|c5 [|c6 [|c7 [|c8 p]]]]]]]];
    simpl in H; try discriminate.
  injection H as H1 H2 H3 H4 H5 H6 H7.
  apply lower_byte_space in H7 as ->.
  exists (String c1 (String c2 (String c3 (String c4 (String c5 (String c6 EmptyString)))))).
  split; [reflexivity|]. simpl.
  assert (Hne : forall c x, lower_byte c = x -> x <> space -> Ascii.eqb c space = false).
  { intros c x Hc Hx. apply Ascii.eqb_neq. intros ->. apply Hx. rewrite <- Hc. reflexivity. }
  rewrite (Hne _ _ H1), (Hne _ _ H2), (Hne _ _ H3), (Hne _ _ H4),
    (Hne _ _ H5), (Hne _ _ H6); [reflexivity| | | | | |]; discriminate.
Qed.

Lemma app_assoc_string (a b c : string) : (a ++ b) ++ c = a ++ (b ++ c).
Proof.
  induction a as [|x a IH]; [reflexivity|].
  change (String x ((a ++ b) ++ c) = String x (a ++ (b ++ c))). now rewrite IH.
Qed.

(** After the case-insensitive prefix check, the second piece of the split
    is the text after the prefix, up to its first space. *)
Lemma Split_bearer val :
  HasPrefix (ToLower val) "bearer " = true ->
  exists p rest pieces,
    val = p ++ rest /\ ToLower p = "bearer " /\
    Split val space = up_to space p :: up_to space rest :: pieces.
Proof.
  intros H. apply prefix_app in H as [low Hlow].
  apply ToLower_app_inv in Hlow as (p & rest & -> & Hp & _).
  destruct (bearer_shape _ Hp) as (q & -> & Hq).
  destruct (Split_head rest space) as [pieces Hrest].
  exists (q ++ String space EmptyString), rest, pieces.
  split; [reflexivity|]. split; [assumption|].
  rewrite app_assoc_string.
  change (String space EmptyString ++ rest) with (String space rest).
  rewrite (Split_app _ _ _ Hq), Hrest.
  f_equal. clear -Hq. induction q as [|c q IH]; simpl in *.
  - reflexivity.
  - apply orb_false_iff in Hq as [Hc Hq]. rewrite Hc, <- (IH Hq). reflexivity.
Qed.

(** ** Token extraction from a header *)

Lemma drop_bytes_app p rest : drop_bytes (String.length p) (p ++ rest) = rest.
Proof. induction p as [|c p IH]; [reflexivity|exact IH]. Qed.

Lemma ToLower_length s : String.length (ToLower s) = String.length s.
Proof. induction s as [|c s IH]; simpl; [reflexivity|now rewrite IH]. Qed.

Section Extraction.

Variable X : Extern.

Lemma Header_Get_missing req key :
  Header req !! CanonicalMIMEHeaderKey X key = None -> Header_Get X req key = EmptyString.
Proof. unfold Header_Get. now intros ->. Qed.

Lemma HasPrefix_bearer_nonempty val :
  HasPrefix (ToLower val) "bearer " = true -> String.eqb val EmptyString = false.
Proof. destruct val; [discriminate|reflexivity]. Qed.

(** The three ways [extractTokenFromHeader] ends. *)
Lemma extractTokenFromHeader_cases schemeName req :
  let val := Header_Get X req schemeName in
  (HasPrefix (ToLower val) "bearer " = false /\
   exists detail,
     extractTokenFromHeader X schemeName req
     = Err (ErrorResponse "jwt_security_error" 401 detail ∅))
  \/
  (HasPrefix (ToLower val) "bearer " = true /\
   extractTokenFromHeader X schemeName req = Ok (up_to space (drop_bytes 7 val))).
Proof.
  intros val. unfold extractTokenFromHeader. fold val.
  destruct (HasPrefix (ToLower val) "bearer ") eqn:Hp.
  - right. split; [reflexivity|].
    rewrite (HasPrefix_bearer_nonempty _ Hp). cbn [negb].
    destruct (Split_bearer _ Hp) as (p & rest & pieces & Hval & Hlow & ->).
    assert (Hlen : String.length p = 7%nat)
      by (rewrite <- ToLower_length, Hlow; reflexivity).
    rewrite Hval, <- Hlen, drop_bytes_app. reflexivity.
  - left. split; [reflexivity|].
    destruct (String.eqb val EmptyString); simpl; eexists; reflexivity.
Qed.

End Extraction.

(** C6, as amended. When [scheme.In] is the header location, extraction
    fails exactly when the named header is missing or its value does not
    start, case-insensitively, with ["bearer "]; the failure is the
    [jwt_security_error] of status 401; on success the token is the text
    that follows the seven-byte prefix, up to the first space character
    (U+0020); extraction never panics. *)
Theorem header_extraction_up_to_space (X : Extern) (scheme : JWTSecurity) (req : Request) :
  In scheme = LocHeader X ->
  let val := Header_Get X req (Name scheme) in
  ((exists e, extractToken X scheme req = Err e) <->
   (Header req !! CanonicalMIMEHeaderKey X (Name scheme) = None \/
    HasPrefix (ToLower val) "bearer " = false))
  /\ (forall e, extractToken X scheme req = Err e ->
        exists detail, e = ErrorResponse "jwt_security_error" 401 detail ∅)
  /\ (forall incomingToken, extractToken X scheme req = Ok incomingToken ->
        incomingToken = up_to space (drop_bytes 7 val))
  /\ extractToken X scheme req <> Crash.
Proof.
  intros Hin val. unfold extractToken. rewrite Hin, String.eqb_refl.
  destruct (extractTokenFromHeader_cases X (Name scheme) req)
    as [[Hp [detail Hr]]|[Hp Hr]]; fold val in Hp; rewrite Hr.
  - repeat split.
    + intros _. now right.
    + intros _. eauto.
    + intros e [= <-]. eauto.
    + discriminate.
    + discriminate.
  - repeat split.
    + intros [e He]. discriminate.
    + intros [Hmiss|Hno]; [|congruence].
      apply (Header_Get_missing X) in Hmiss. fold val in Hmiss.
      rewrite Hmiss in Hp. discriminate.
    + discriminate.
    + intros tok [= <-]. reflexivity.
    + discriminate.
Qed.

(** The amended statement at ["Bearer x.y.z extra"]. *)
Lemma header_extraction_up_to_space_witness :
  extractToken demo_extern demo_scheme (demo_request "Bearer x.y.z extra") = Ok "x.y.z".
Proof.
  pose proof (header_extraction_up_to_space demo_extern demo_scheme
                (demo_request "Bearer x.y.z extra") eq_refl) as (_ & _ & Htok & _).
  destruct (extractToken demo_extern demo_scheme (demo_request "Bearer x.y.z extra"))
    as [tok| |] eqn:E; [|vm_compute in E; discriminate E..].
  rewrite (Htok tok eq_refl). vm_compute. reflexivity.
Defined.

(** C6 as stated fails: a tab is white space and does not end the token.
    For the header value ["Bearer a<TAB>b"] the token is ["a<TAB>b"], not the
    text up to the first white space, ["a"]. *)
Lemma header_token_runs_past_tab :
  let val := "Bearer a" ++ tab ++ "b" in
  extractToken demo_extern demo_scheme (demo_request val) = Ok ("a" ++ tab ++ "b")
  /\ "a" ++ tab ++ "b" <> up_to_first is_whitespace (drop_bytes 7 val)
  /\ up_to_first is_whitespace (drop_bytes 7 val) = "a".
Proof. vm_compute. repeat split; discriminate. Qed.

(** ** Verification against the configured keys *)

Section Verification.

Variable X : Extern.

Lemma attempt_cases algo key tok :
  (exists t, ParseUnverified X tok = inr t /\ HasPrefix (Alg t) algo = true /\
             Verify X t key = None /\
             attempt X algo key tok = (Some (mkToken (Raw t) (Alg t) (TokenClaims t) true), None))
  \/ (exists t e, attempt X algo key tok = (t, Some e) /\ ~ verifies X algo key tok).
Proof.
  unfold attempt, jwt_Parse, keyFunc, verifies.
  destruct (ParseUnverified X tok) as [[t e]|t] eqn:Hd.
  - right. exists t, e. split; [reflexivity|]. intros (t' & [=] & _).
  - destruct (HasPrefix (Alg t) algo) eqn:Hp; cbn [negb].
    + destruct (Verify X t key) as [e|] eqn:Hv.
      * right. exists (Some t), e. split; [reflexivity|].
        intros (t' & [= <-] & _ & Hv'). congruence.
      * left. exists t. auto.
    + right. eexists (Some t), _. split; [reflexivity|].
      intros (t' & [= <-] & Hp' & _). congruence.
Qed.

Lemma attempt_success algo key tok :
  succeeded (attempt X algo key tok) = true <-> verifies X algo key tok.
Proof.
  destruct (attempt_cases algo key tok) as [(t & Hd & Hp & Hv & ->)|(t & e & -> & Hn)].
  - split; [|reflexivity]. intros _. exists t. auto.
  - split; [discriminate|]. intros H. contradiction.
Qed.

Lemma attempt_accepts algo key tok t :
  attempt X algo key tok = (Some t, None) -> HasPrefix (Alg t) algo = true.
Proof.
  destruct (attempt_cases algo key tok) as [(t0 & _ & Hp & _ & ->)|(t0 & e & -> & _)].
  - intros [= <-]. exact Hp.
  - discriminate.
Qed.

Lemma last_default_irrelevant {A : Type} (l : list A) (d d' : A) :
  l <> [] -> List.last l d = List.last l d'.
Proof.
  induction l as [|x l IH]; [congruence|]. intros _.
  destruct l as [|y l]; [reflexivity|]. apply IH. discriminate.
Qed.

(** The loop returns the first successful parse, or the last failed one. *)
Lemma validateKeys_find {K : Type} (wrap : K -> Key) keys algo tok cur :
  validateKeys X wrap keys algo tok cur =
  let tries := List.map (fun k => attempt X algo (wrap k) tok) keys in
  match List.find succeeded tries with
  | Some r => r
  | None => List.last tries cur
  end.
Proof.
  revert cur; induction keys as [|k keys IH]; intros cur; [reflexivity|].
  cbn [validateKeys List.map List.find]. fold (attempt X algo (wrap k) tok).
  unfold succeeded at 1.
  destruct (snd (attempt X algo (wrap k) tok)) eqn:E; [|reflexivity].
  rewrite IH. cbv zeta.
  destruct (List.find succeeded _); [reflexivity|].
  destruct keys as [|k' keys]; [reflexivity|].
  change (List.last (attempt X algo (wrap k) tok :: ?l) cur) with (List.last l cur).
  apply last_default_irrelevant. discriminate.
Qed.

Lemma find_none_last {A : Type} (f : A -> bool) (l : list A) (d : A) :
  l <> [] -> List.find f l = None -> f (List.last l d) = false.
Proof.
  induction l as [|x l IH]; [congruence|]. intros _. simpl.
  destruct (f x) eqn:E; [discriminate|]. intros H.
  destruct l as [|y l]; [exact E|]. apply IH; [discriminate|exact H].
Qed.

Lemma find_app {A : Type} (f : A -> bool) (l1 l2 : list A) :
  List.find f (l1 ++ l2)%list =
  match List.find f l1 with Some x => Some x | None => List.find f l2 end.
Proof.
  induction l1 as [|x l1 IH]; [reflexivity|]. simpl.
  destruct (f x); [reflexivity|exact IH].
Qed.

Lemma find_some_succeeded l r :
  List.find succeeded l = Some r -> snd r = None.
Proof.
  intros H. apply List.find_some in H as [_ H]. unfold succeeded in H.
  destruct (snd r); [discriminate|reflexivity].
Qed.

Lemma nonempty_length {A : Type} (l : list A) : (0 <? length l)%nat = negb (bool_decide (l = [])).
Proof. destruct l; reflexivity. Qed.

Lemma last_app_nonempty {A : Type} (l1 l2 : list A) (d : A) :
  l2 <> [] -> List.last (l1 ++ l2)%list d = List.last l2 d.
Proof.
  intros H. induction l1 as [|x l1 IH]; [reflexivity|].
  simpl. destruct (l1 ++ l2)%list eqn:E; [|exact IH].
  apply app_eq_nil in E as [_ E]. contradiction.
Qed.

(** The outcome of one bucket's loop, read off its list of tries. *)
Lemma loop_outcome (tries : list (option Token * option error)) :
  tries <> [] ->
  let r := match List.find succeeded tries with
           | Some r => r
           | None => List.last tries (None, None)
           end in
  (exists r', List.find succeeded tries = Some r' /\ r = r' /\ snd r = None)
  \/ (List.find succeeded tries = None /\ exists e, snd r = Some e).
Proof.
  intros Hne r. subst r. destruct (List.find succeeded tries) as [r'|] eqn:E.
  - left. exists r'. repeat split. eapply find_some_succeeded; eassumption.
  - right. split; [reflexivity|].
    pose proof (find_none_last succeeded tries (None, None) Hne E) as H.
    unfold succeeded in H. destruct (snd (List.last tries (None, None))); [eauto|discriminate].
Qed.

(** The verification step returns the first successful try in the order
    RSA, ECDSA, HMAC, and the last failed try when none succeeds. *)
Lemma verifyToken_find rsaKeys ecdsaKeys hmacKeys tok :
  attempts X rsaKeys ecdsaKeys hmacKeys tok <> [] ->
  verifyToken X rsaKeys ecdsaKeys hmacKeys tok =
  match List.find succeeded (attempts X rsaKeys ecdsaKeys hmacKeys tok) with
  | Some r => r
  | None => List.last (attempts X rsaKeys ecdsaKeys hmacKeys tok) (None, None)
  end.
Proof.
  unfold verifyToken, validateRSAKeys, validateECDSAKeys, validateHMACKeys, attempts.
  rewrite !validateKeys_find. cbv zeta. rewrite !find_app.
  set (A := List.map (fun k => attempt X "RS" (RSAKey k) tok) rsaKeys).
  set (B := List.map (fun k => attempt X "ES" (ECDSAKey k) tok) ecdsaKeys).
  set (C := List.map (fun k => attempt X "HS" (HMACKey k) tok) hmacKeys).
  assert (HA : rsaKeys <> [] -> A <> []) by (destruct rsaKeys; [congruence|discriminate]).
  assert (HB : ecdsaKeys <> [] -> B <> []) by (destruct ecdsaKeys; [congruence|discriminate]).
  assert (HC : hmacKeys <> [] -> C <> []) by (destruct hmacKeys; [congruence|discriminate]).
  assert (HA0 : rsaKeys = [] -> A = []) by (intros E; subst A; rewrite E; reflexivity).
  assert (HB0 : ecdsaKeys = [] -> B = []) by (intros E; subst B; rewrite E; reflexivity).
  assert (HC0 : hmacKeys = [] -> C = []) by (intros E; subst C; rewrite E; reflexivity).
  rewrite !nonempty_length.
  intros Hne.
  assert (Hsome : forall e : error, bool_decide (Some e = @None error) = false)
    by (intros; apply bool_decide_eq_false; discriminate).
  destruct (decide (rsaKeys = [])) as [EA|NA];
    [rewrite (HA0 EA) in *; rewrite (bool_decide_eq_true_2 _ EA)
    |rewrite (bool_decide_eq_false_2 _ NA);
     destruct (loop_outcome A (HA NA)) as [(ra & -> & _ & Hs)|(-> & ea & Hs)];
     [destruct ra as [ta ea]; cbn in Hs; subst ea
     |destruct (List.last A (None, None)) as [ta ea'] eqn:LA; cbn in Hs; subst ea']];
  cbn [negb andb bool_decide decide_rel List.find app];
  (destruct (decide (ecdsaKeys = [])) as [EB|NB];
    [rewrite (HB0 EB) in *; rewrite ?(bool_decide_eq_true_2 _ EB)
    |rewrite ?(bool_decide_eq_false_2 _ NB);
     destruct (loop_outcome B (HB NB)) as [(rb & -> & _ & Hsb)|(-> & eb & Hsb)];
     [destruct rb as [tb eb]; cbn in Hsb; subst eb
     |destruct (List.last B (None, None)) as [tb eb'] eqn:LB; cbn in Hsb; subst eb']]);
  cbn [negb andb bool_decide decide_rel List.find app];
  (destruct (decide (hmacKeys = [])) as [EC|NC];
    [rewrite (HC0 EC) in *; rewrite ?(bool_decide_eq_true_2 _ EC)
    |rewrite ?(bool_decide_eq_false_2 _ NC);
     destruct (loop_outcome C (HC NC)) as [(rc & -> & _ & Hsc)|(-> & ec & Hsc)];
     [destruct rc as [tc ec]; cbn in Hsc; subst ec
     |destruct (List.last C (None, None)) as [tc ec'] eqn:LC; cbn in Hsc; subst ec']]);
  cbn [negb andb bool_decide decide_rel List.find app].
  all: try reflexivity.
  all: try (exfalso; apply Hne; reflexivity).
  all: rewrite ?Hsome; cbn [negb andb]; rewrite ?app_nil_r;
    rewrite ?last_app_nonempty
      by first [ exact (HC NC) | exact (HB NB)
               | intros E; apply app_eq_nil in E as [_ E]; exact (HC NC E) ];
    rewrite ?LA, ?LB, ?LC; reflexivity.
Qed.

Lemma attempts_nonempty rsaKeys ecdsaKeys hmacKeys tok :
  (rsaKeys, ecdsaKeys, hmacKeys) <> ([], [], []) ->
  attempts X rsaKeys ecdsaKeys hmacKeys tok <> [].
Proof.
  unfold attempts. destruct rsaKeys, ecdsaKeys, hmacKeys; try discriminate. congruence.
Qed.

(** Some try succeeds exactly when some configured key verifies the token
    for its bucket. *)
Lemma some_try_succeeds rsaKeys ecdsaKeys hmacKeys tok :
  (exists r, List.In r (attempts X rsaKeys ecdsaKeys hmacKeys tok) /\ succeeded r = true)
  <->
  ((exists k, List.In k rsaKeys /\ verifies X "RS" (RSAKey k) tok) \/
   (exists k, List.In k ecdsaKeys /\ verifies X "ES" (ECDSAKey k) tok) \/
   (exists k, List.In k hmacKeys /\ verifies X "HS" (HMACKey k) tok)).
Proof.
  unfold attempts. split.
  - intros (r & Hin & Hs).
    apply List.in_app_or in Hin as [Hin|Hin]; [|apply List.in_app_or in Hin as [Hin|Hin]];
      apply List.in_map_iff in Hin as (k & <- & Hk); apply attempt_success in Hs; eauto.
  - intros [(k & Hk & Hv)|[(k & Hk & Hv)|(k & Hk & Hv)]];
      apply attempt_success in Hv; eexists; (split; [|exact Hv]).
    + apply List.in_or_app. left. apply List.in_map_iff. eauto.
    + apply List.in_or_app. right. apply List.in_or_app. left.
      apply List.in_map_iff. eauto.
    + apply List.in_or_app. right. apply List.in_or_app. right.
      apply List.in_map_iff. eauto.
Qed.

(** A failed verification ends the handler with the 401 error. *)
Lemma handle_rejects_unverified rsaKeys ecdsaKeys hmacKeys validationFunc scheme
    nextHandler ctx rw req tok t e :
  extractToken X scheme req = Ok tok ->
  verifyToken X rsaKeys ecdsaKeys hmacKeys tok = (t, Some e) ->
  handle X rsaKeys ecdsaKeys hmacKeys validationFunc scheme nextHandler ctx rw req
  = Err (ErrorResponse "jwt_security_error" 401
           ("JWT validation failed: " ++ Error X e) ∅).
Proof. unfold handle, handle_call. intros -> ->. reflexivity. Qed.

Lemma New_handle validationKeys rsaKeys ecdsaKeys hmacKeys validationFunc scheme :
  partitionKeys validationKeys = (rsaKeys, ecdsaKeys, hmacKeys) ->
  New X validationKeys validationFunc scheme
  = handle X rsaKeys ecdsaKeys hmacKeys validationFunc scheme.
Proof. unfold New. intros ->. reflexivity. Qed.

End Verification.

(** C3. With at least one configured key, the verification step returns the
    first successful try in the order RSA keys, ECDSA keys, HMAC keys (each
    bucket in its own order); it passes exactly when some configured key
    verifies the token for its bucket; and when no try succeeds the handler,
    also the one built by [New], ends with the [jwt_security_error] of
    status 401. *)
Theorem verification_first_success_wins (X : Extern)
    (rsaKeys : list rsa_PublicKey) (ecdsaKeys : list ecdsa_PublicKey)
    (hmacKeys : list string) (tok : string) :
  (rsaKeys, ecdsaKeys, hmacKeys) <> ([], [], []) ->
  let tries := attempts X rsaKeys ecdsaKeys hmacKeys tok in
  let result := verifyToken X rsaKeys ecdsaKeys hmacKeys tok in
  (forall r, List.find succeeded tries = Some r -> result = r)
  /\ (snd result = None <->
        (exists k, List.In k rsaKeys /\ verifies X "RS" (RSAKey k) tok) \/
        (exists k, List.In k ecdsaKeys /\ verifies X "ES" (ECDSAKey k) tok) \/
        (exists k, List.In k hmacKeys /\ verifies X "HS" (HMACKey k) tok))
  /\ (List.find succeeded tries = None ->
        exists e, snd result = Some e /\
          forall validationFunc scheme nextHandler ctx rw req,
            extractToken X scheme req = Ok tok ->
            handle X rsaKeys ecdsaKeys hmacKeys validationFunc scheme nextHandler ctx rw req
            = Err (ErrorResponse "jwt_security_error" 401
                     ("JWT validation failed: " ++ Error X e) ∅)
            /\ forall validationKeys,
                 partitionKeys validationKeys = (rsaKeys, ecdsaKeys, hmacKeys) ->
                 New X validationKeys validationFunc scheme nextHandler ctx rw req
                 = Err (ErrorResponse "jwt_security_error" 401
                          ("JWT validation failed: " ++ Error X e) ∅)).
Proof.
  intros Hkeys tries result.
  pose proof (attempts_nonempty X _ _ _ tok Hkeys) as Hne. fold tries in Hne.
  assert (Hres : result = match List.find succeeded tries with
                          | Some r => r
                          | None => List.last tries (None, None)
                          end) by (apply verifyToken_find; exact Hne).
  destruct (loop_outcome tries Hne) as [(r' & Hf & _ & Hs)|(Hf & e & Hs)];
    rewrite Hf in Hres, Hs; cbv zeta in Hs.
  - split; [|split].
    + intros r Hr. rewrite Hf in Hr. congruence.
    + rewrite Hres. split; [intros _|intros _; exact Hs].
      apply some_try_succeeds. exists r'.
      apply List.find_some in Hf. exact Hf.
    + rewrite Hf. discriminate.
  - split; [|split].
    + rewrite Hf. discriminate.
    + rewrite Hres, Hs. split; [discriminate|]. intros H.
      apply some_try_succeeds in H as (r & Hin & Hr).
      rewrite (List.find_none _ _ Hf r Hin) in Hr. discriminate.
    + intros _. exists e. rewrite Hres. split; [exact Hs|].
      intros vf scheme next ctx rw req Hex.
      assert (Hv : verifyToken X rsaKeys ecdsaKeys hmacKeys tok
                   = (fst (List.last tries (None, None)), Some e)).
      { fold result. rewrite Hres, <- Hs. apply surjective_pairing. }
      split.
      * eapply handle_rejects_unverified; eassumption.
      * intros vk Hp. rewrite (New_handle X _ _ _ _ _ _ Hp).
        eapply handle_rejects_unverified; eassumption.
Qed.

(** Key rotation at work: the first HMAC key fails, the second verifies. *)
Lemma verification_first_success_wins_witness :
  verifyToken demo_extern [] [] ["retired"; "secret"] "x.y.z"
  = (Some (mkToken "x.y.z" "HS256" (TokenClaims demo_token) true), None).
Proof.
  assert (Hkeys : (@nil rsa_PublicKey, @nil ecdsa_PublicKey, ["retired"; "secret"])
                  <> ([], [], [])) by (vm_compute; congruence).
  destruct (verification_first_success_wins demo_extern [] [] ["retired"; "secret"]
              "x.y.z" Hkeys) as (Hfirst & _ & _).
  apply Hfirst. vm_compute. reflexivity.
Defined.

(** ** Algorithm pinning *)
Section Pinning.

Variable X : Extern.

Lemma attempt_mismatch algo key tok t0 :
  ParseUnverified X tok = inr t0 ->
  HasPrefix (Alg t0) algo = false ->
  attempt X algo key tok = unexpected_method t0.
Proof.
  intros Hd Hp. unfold attempt, jwt_Parse, keyFunc. rewrite Hd, Hp. reflexivity.
Qed.

Lemma validateKeys_accepts {K : Type} (wrap : K -> Key) keys algo tok cur t :
  validateKeys X wrap keys algo tok cur = (Some t, None) ->
  cur = (Some t, None) \/ HasPrefix (Alg t) algo = true.
Proof.
  revert cur; induction keys as [|k keys IH]; intros cur H; [left; exact H|].
  cbn [validateKeys] in H. fold (attempt X algo (wrap k) tok) in H.
  destruct (snd (attempt X algo (wrap k) tok)) eqn:E.
  - destruct (IH _ H) as [Hr|Hp]; [|right; exact Hp].
    rewrite Hr in E. discriminate.
  - right. eapply attempt_accepts. exact H.
Qed.

Lemma validateKeys_no_error {K : Type} (wrap : K -> Key) keys algo tok cur :
  snd (validateKeys X wrap keys algo tok cur) = None ->
  (keys = [] /\ validateKeys X wrap keys algo tok cur = cur)
  \/ exists t, validateKeys X wrap keys algo tok cur = (Some t, None).
Proof.
  revert cur; induction keys as [|k keys IH]; intros cur H; [left; auto|]. right.
  cbn [validateKeys] in *. fold (attempt X algo (wrap k) tok) in *.
  destruct (attempt_cases X algo (wrap k) tok) as [(t & _ & _ & _ & Hr)|(t & e & Hr & _)];
    rewrite Hr in *; cbn [snd] in *; [eauto|].
  destruct (IH _ H) as [[_ Hcur]|Ht]; [|exact Ht].
  rewrite Hcur in H. discriminate H.
Qed.

Lemma validateKeys_mismatch {K : Type} (wrap : K -> Key) keys algo tok cur t0 :
  ParseUnverified X tok = inr t0 ->
  HasPrefix (Alg t0) algo = false ->
  validateKeys X wrap keys algo tok cur
  = match keys with [] => cur | _ :: _ => unexpected_method t0 end.
Proof.
  intros Hd Hp. revert cur; induction keys as [|k keys IH]; intros cur; [reflexivity|].
  cbn [validateKeys]. fold (attempt X algo (wrap k) tok).
  rewrite (attempt_mismatch _ _ _ _ Hd Hp). cbn [snd unexpected_method].
  rewrite IH. destruct keys; reflexivity.
Qed.

End Pinning.

Lemma bucket_mismatch (X : Extern) b rsaKeys ecdsaKeys hmacKeys tok t0 :
  ParseUnverified X tok = inr t0 ->
  HasPrefix (Alg t0) (bucket_prefix b) = false ->
  bucket_size b rsaKeys ecdsaKeys hmacKeys <> 0%nat ->
  bucket_result X b rsaKeys ecdsaKeys hmacKeys tok = unexpected_method t0.
Proof.
  intros Hd Hp Hn.
  destruct b; cbn [bucket_result bucket_size] in *;
    unfold validateRSAKeys, validateECDSAKeys, validateHMACKeys;
    rewrite (validateKeys_mismatch X _ _ _ _ _ _ Hd Hp);
    [destruct rsaKeys|destruct ecdsaKeys|destruct hmacKeys];
    first [reflexivity | contradiction Hn; reflexivity].
Qed.

(** C4. A bucket's validator returns a token without error only when the
    token's algorithm begins with the prefix of the bucket, and a non-empty
    bucket that returns no error returns such a token. For a decoded
    token of another family a non-empty bucket returns an error, the
    [Unexpected signing method] rejection, and the same result whatever the
    library's verifier would answer: the key is not used. In particular an
    HS256 token offered to RSA keys is rejected. *)
Theorem algorithm_pinning (X : Extern) (b : bucket)
    (rsaKeys : list rsa_PublicKey) (ecdsaKeys : list ecdsa_PublicKey)
    (hmacKeys : list string) (tok : string) :
  (forall t, bucket_result X b rsaKeys ecdsaKeys hmacKeys tok = (Some t, None) ->
        HasPrefix (Alg t) (bucket_prefix b) = true)
  /\ (bucket_size b rsaKeys ecdsaKeys hmacKeys <> 0%nat ->
      snd (bucket_result X b rsaKeys ecdsaKeys hmacKeys tok) = None ->
      exists t, bucket_result X b rsaKeys ecdsaKeys hmacKeys tok = (Some t, None)
                /\ HasPrefix (Alg t) (bucket_prefix b) = true)
  /\ (forall t0, ParseUnverified X tok = inr t0 ->
        HasPrefix (Alg t0) (bucket_prefix b) = false ->
        bucket_size b rsaKeys ecdsaKeys hmacKeys <> 0%nat ->
        bucket_result X b rsaKeys ecdsaKeys hmacKeys tok = unexpected_method t0
        /\ forall verify,
             bucket_result (with_Verify X verify) b rsaKeys ecdsaKeys hmacKeys tok
             = bucket_result X b rsaKeys ecdsaKeys hmacKeys tok)
  /\ (forall t0, ParseUnverified X tok = inr t0 -> Alg t0 = "HS256" ->
        rsaKeys <> [] ->
        exists e, validateRSAKeys X rsaKeys "RS" tok = (Some t0, Some e)).
Proof.
  assert (Hacc : forall t, bucket_result X b rsaKeys ecdsaKeys hmacKeys tok = (Some t, None) ->
                           HasPrefix (Alg t) (bucket_prefix b) = true).
  { intros t H.
    destruct b; cbn [bucket_result] in H;
      unfold validateRSAKeys, validateECDSAKeys, validateHMACKeys in H;
      apply validateKeys_accepts in H as [H|H]; first [discriminate H | exact H]. }
  split; [exact Hacc|split; [|split]].
  - intros Hn Hs.
    assert (Ht : exists t, bucket_result X b rsaKeys ecdsaKeys hmacKeys tok = (Some t, None)).
    { destruct b; cbn [bucket_result bucket_size] in *;
        unfold validateRSAKeys, validateECDSAKeys, validateHMACKeys in *;
        apply validateKeys_no_error in Hs as [[Hnil _]|Ht]; try exact Ht;
        rewrite Hnil in Hn; contradiction Hn; reflexivity. }
    destruct Ht as [t Ht]. exists t. split; [exact Ht|exact (Hacc t Ht)].
  - intros t0 Hd Hp Hn. split.
    + apply bucket_mismatch; assumption.
    + intros verify.
      rewrite (bucket_mismatch X b _ _ _ _ _ Hd Hp Hn).
      apply bucket_mismatch; assumption.
  - intros t0 Hd Ha Hn.
    assert (Hp : HasPrefix (Alg t0) (bucket_prefix RSA) = false) by (rewrite Ha; reflexivity).
    assert (Hs : bucket_size RSA rsaKeys ecdsaKeys hmacKeys <> 0%nat)
      by (destruct rsaKeys; [congruence|discriminate]).
    pose proof (bucket_mismatch X RSA rsaKeys ecdsaKeys hmacKeys tok t0 Hd Hp Hs) as H.
    cbn [bucket_result bucket_prefix] in H. rewrite H. eexists. reflexivity.
Qed.

(** The HS256 token of the demonstration offered to an RSA key. *)
Lemma algorithm_pinning_witness :
  exists e, validateRSAKeys demo_extern [{| rsa_N := 3233; rsa_E := 17 |}] "RS" "x.y.z"
            = (Some demo_token, Some e).
Proof.
  destruct (algorithm_pinning demo_extern RSA [{| rsa_N := 3233; rsa_E := 17 |}] [] [] "x.y.z")
    as (_ & _ & _ & Hhs).
  apply Hhs; [vm_compute; reflexivity | reflexivity | discriminate].
Defined.

(** ** Scope parsing *)

Lemma foldl_add_scope scopes m l :
  foldl add_scope (m, l) scopes
  = (foldl (fun m scope => <[scope := true]> m) m scopes, (l ++ scopes)%list).
Proof.
  revert m l; induction scopes as [|s scopes IH]; intros m l; cbn [foldl].
  - now rewrite app_nil_r.
  - change (add_scope (m, l) s) with (<[s := true]> m, (l ++ [s])%list).
    rewrite IH. now rewrite <- app_assoc.
Qed.

Lemma foldl_add_item items acc :
  foldl add_item acc items = foldl add_scope acc (strings_of items).
Proof.
  revert acc; induction items as [|v items IH]; intros acc; [reflexivity|].
  destruct v; simpl; apply IH.
Qed.

(** [parseClaimScopes] in one equation. *)
Lemma parseClaimScopes_found t claims :
  TokenClaims t = MapClaims claims ->
  parseClaimScopes (Some t) =
  match found_claim claims with
  | None => Ok (∅, [])
  | Some v =>
      match presented v with
      | Some scopes => Ok (scope_set scopes, sort_Strings scopes)
      | None =>
          Err (Errorf ("unsupported scope format in incoming JWT claim, was type "
                       ++ type_name_of v))
      end
  end.
Proof.
  intros Hc. unfold parseClaimScopes, found_claim, validScopeClaimKeys, scope_set.
  rewrite Hc. cbn [scan_claims].
  destruct (claims !! "scope") as [[| | | | |]|];
    try reflexivity;
    try (cbn [presented]; rewrite ?foldl_add_item, foldl_add_scope; reflexivity).
  all: destruct (claims !! "scopes") as [[| | | | |]|];
    try reflexivity;
    cbn [presented]; rewrite ?foldl_add_item, foldl_add_scope; reflexivity.
Qed.

Lemma elem_of_scope_set scopes scope :
  default false (scope_set scopes !! scope) = true <-> List.In scope scopes.
Proof.
  unfold scope_set.
  assert (H : forall (m : gmap string bool),
             default false (foldl (fun m s => <[s := true]> m) m scopes !! scope) = true
             <-> (List.In scope scopes \/ default false (m !! scope) = true)).
  { induction scopes as [|s scopes IH]; intros m; simpl.
    - tauto.
    - rewrite IH. destruct (decide (s = scope)) as [->|Hne].
      + rewrite lookup_insert_eq. simpl. tauto.
      + rewrite lookup_insert_ne by exact Hne. intuition congruence. }
  rewrite H, lookup_empty. simpl. intuition discriminate.
Qed.

Section Authorization.

Variable X : Extern.

(** The handler after a verification without error. *)
Lemma New_verified validationKeys validationFunc scheme nextHandler ctx rw req tok token :
  extractToken X scheme req = Ok tok ->
  verifyWith X validationKeys tok = (token, None) ->
  New X validationKeys validationFunc scheme nextHandler ctx rw req =
  match parseClaimScopes token with
  | Crash => Crash
  | Err err => Err (ErrorResponse "jwt_security_error" 401 (Error X err) ∅)
  | Ok (scopesInClaim, scopesInClaimList) =>
      if forallb (fun scope => default false (scopesInClaim !! scope))
           (ContextRequiredScopes ctx)
      then wrapped X validationFunc nextHandler (WithJWT ctx token) rw req
      else Err (scope_error (ContextRequiredScopes ctx) scopesInClaimList)
  end.
Proof.
  unfold verifyWith, New. destruct (partitionKeys validationKeys) as [[r e] h].
  intros Hex Hv. unfold handle, handle_call. rewrite Hex, Hv.
  destruct (parseClaimScopes token) as [[m l]| |]; [|reflexivity..].
  destruct (forallb _ _); reflexivity.
Qed.

(** A call changes the captured variable only when the request is
    admitted, and then wraps it in the hook. *)
Lemma New_captured_admitted validationKeys validationFunc scheme cur ctx rw req :
  New_captured X validationKeys validationFunc scheme cur ctx rw req
  = if admitted X validationKeys scheme (ctx, rw, req)
    then wrapped X validationFunc cur else cur.
Proof.
  unfold New_captured, admitted, verifyWith, handle_call. cbn [fst snd].
  destruct (partitionKeys validationKeys) as [[r k] h].
  destruct (extractToken X scheme req) as [tok| |]; [|reflexivity..].
  destruct (verifyToken X r k h tok) as [token [e|]]; [reflexivity|].
  destruct (parseClaimScopes token) as [[m l]| |]; [|reflexivity..].
  destruct (forallb _ _); reflexivity.
Qed.

(** After a history the captured variable holds the first handler, wrapped
    in the hook once for every admitted request. *)
Lemma captured_admissions validationKeys validationFunc scheme nextHandler history :
  captured X validationKeys validationFunc scheme nextHandler history
  = match validationFunc with
    | Some f => Nat.iter (admissions X validationKeys scheme history) f nextHandler
    | None => nextHandler
    end.
Proof.
  unfold captured, admissions. revert nextHandler.
  induction history as [|[[ctx rw] req] history IH]; intros nextHandler.
  - destruct validationFunc; reflexivity.
  - cbn [foldl List.filter fst snd]. rewrite IH, New_captured_admitted.
    destruct (admitted X validationKeys scheme (ctx, rw, req)).
    + destruct validationFunc as [f|]; [|reflexivity].
      cbn [wrapped length]. rewrite Nat.iter_succ_r. reflexivity.
    + reflexivity.
Qed.

End Authorization.






(** C5, what the code does. For a token whose found scope claim is the
    empty string, [parseClaimScopes] succeeds with the scope set holding one
    scope, the empty string, and the one-element list of the empty string:
    [strings.Split] of the empty string is one empty piece. An action that
    requires the empty scope is therefore granted by such a token. *)
Theorem empty_scope_string_yields_one_empty_scope (t : Token) (claims : gmap string jvalue) :
  TokenClaims t = MapClaims claims ->
  found_claim claims = Some (JString EmptyString) ->
  parseClaimScopes (Some t) = Ok ({[ EmptyString := true ]}, [EmptyString])
  /\ default false (({[ EmptyString := true ]} : gmap string bool) !! EmptyString) = true.
Proof.
  intros Hc Hf. rewrite (parseClaimScopes_found t claims Hc), Hf. split; reflexivity.
Qed.

(** The claims whose only entry is an empty [scope] string. *)
Lemma empty_scope_string_yields_one_empty_scope_witness :
  parseClaimScopes (Some (token_with {[ "scope" := JString EmptyString ]}))
  = Ok ({[ EmptyString := true ]}, [EmptyString]).
Proof.
  exact (proj1 (empty_scope_string_yields_one_empty_scope
                  (token_with {[ "scope" := JString EmptyString ]})
                  {[ "scope" := JString EmptyString ]} eq_refl eq_refl)).
Defined.

(** C1, what the code does. With keys of an unrecognised type the three
    buckets are empty, no validator runs, and [token] and [err] are both still
    [nil] when [parseClaimScopes] reads [token.Claims]: the handler panics.
    It returns no error; the next handler is not run. *)
Theorem unknown_keys_panic (X : Extern) (type_name : string)
    (validationFunc : option (Middleware X)) (scheme : JWTSecurity)
    (nextHandler : Handler X) (ctx : Context) (rw : ResponseWriter X) (req : Request)
    (tok : string) :
  extractToken X scheme req = Ok tok ->
  partitionKeys (VOther type_name) = ([], [], [])
  /\ New X (VOther type_name) validationFunc scheme nextHandler ctx rw req = Crash.
Proof.
  intros Hex. split; [reflexivity|].
  rewrite (New_verified X _ validationFunc _ nextHandler ctx rw _ tok None Hex);
    reflexivity.
Qed.

Lemma unknown_keys_panic_witness :
  New demo_extern (VOther "int") None demo_scheme demo_next
      (mkContext [] None) tt (demo_request "Bearer x.y.z") = Crash.
Proof.
  apply (unknown_keys_panic demo_extern "int" None demo_scheme demo_next
           (mkContext [] None) tt (demo_request "Bearer x.y.z") "x.y.z").
  vm_compute. reflexivity.
Defined.

(** ** Precedence of the scope claims *)

(** C7, as amended. ["scope"] is examined first and ["scopes"] second, and
    a claim that is absent or null is passed over. A ["scope"] claim that is
    not null decides the result alone; when ["scope"] is absent or null the
    ["scopes"] claim decides it; a found value that is neither a string nor
    a list makes [parseClaimScopes] fail, and the middleware return the
    [jwt_security_error] of status 401; a found string presents its
    space-separated pieces, a found list the strings among its elements. *)
Theorem scope_claim_precedence (X : Extern) (t1 t2 : Token)
    (claims1 claims2 : gmap string jvalue) :
  TokenClaims t1 = MapClaims claims1 ->
  TokenClaims t2 = MapClaims claims2 ->
  (forall v, claims1 !! "scope" = Some v -> is_null v = false ->
             claims2 !! "scope" = Some v ->
             parseClaimScopes (Some t1) = parseClaimScopes (Some t2))
  /\ (forall v, claims1 !! "scope" = Some v -> is_null v = false ->
                found_claim claims1 = Some v)
  /\ ((claims1 !! "scope" = None \/ claims1 !! "scope" = Some JNull) ->
      (claims2 !! "scope" = None \/ claims2 !! "scope" = Some JNull) ->
      claims1 !! "scopes" = claims2 !! "scopes" ->
      parseClaimScopes (Some t1) = parseClaimScopes (Some t2))
  /\ (forall v, found_claim claims1 = Some v ->
        match v with
        | JString scopes =>
            parseClaimScopes (Some t1)
            = Ok (scope_set (Split scopes space), sort_Strings (Split scopes space))
        | JArray items =>
            parseClaimScopes (Some t1)
            = Ok (scope_set (strings_of items), sort_Strings (strings_of items))
        | _ =>
            exists msg, parseClaimScopes (Some t1) = Err (Errorf msg) /\
              forall validationKeys validationFunc scheme nextHandler ctx rw req tok,
                extractToken X scheme req = Ok tok ->
                verifyWith X validationKeys tok = (Some t1, None) ->
                New X validationKeys validationFunc scheme nextHandler ctx rw req
                = Err (ErrorResponse "jwt_security_error" 401 msg ∅)
        end).
Proof.
  intros H1 H2.
  rewrite (parseClaimScopes_found t1 claims1 H1), (parseClaimScopes_found t2 claims2 H2).
  assert (Hfound : forall (c : gmap string jvalue) v,
             c !! "scope" = Some v -> is_null v = false -> found_claim c = Some v).
  { intros c v Hv Hn. unfold found_claim. rewrite Hv. destruct v; [discriminate|..]; reflexivity. }
  split; [|split; [|split]].
  - intros v Hv1 Hn Hv2. now rewrite (Hfound _ _ Hv1 Hn), (Hfound _ _ Hv2 Hn).
  - intros v Hv Hn. exact (Hfound _ _ Hv Hn).
  - intros Ha Hb Heq. unfold found_claim.
    destruct Ha as [-> | ->], Hb as [-> | ->]; rewrite Heq; reflexivity.
  - intros v Hv. rewrite Hv.
    destruct v; cbn [presented]; try reflexivity;
      (eexists; split; [reflexivity|];
       intros vk vf scheme next ctx rw req tok Hex Hver;
       rewrite (New_verified X _ vf _ next ctx rw _ _ _ Hex Hver),
         (parseClaimScopes_found t1 claims1 H1), Hv; reflexivity).
Qed.

Lemma scope_claim_precedence_witness :
  parseClaimScopes (Some (token_with {[ "scope" := JString "a b"; "scopes" := JString "c" ]}))
  = parseClaimScopes (Some (token_with {[ "scope" := JString "a b" ]})).
Proof.
  refine (proj1 (scope_claim_precedence demo_extern
                   (token_with {[ "scope" := JString "a b"; "scopes" := JString "c" ]})
                   (token_with {[ "scope" := JString "a b" ]})
                   {[ "scope" := JString "a b"; "scopes" := JString "c" ]}
                   {[ "scope" := JString "a b" ]} eq_refl eq_refl)
            (JString "a b") _ _ _); reflexivity.
Defined.

(** C7 as stated fails twice. A ["scope"] claim that is present but null is
    passed over, so that two tokens with the same ["scope"] claim parse to
    different scope sets, decided by ["scopes"]; and a list holding a number,
    which is not a list of strings, is accepted, the number being dropped. *)
Lemma null_scope_consults_scopes :
  let claims1 : gmap string jvalue := {[ "scope" := JNull; "scopes" := JString "admin" ]} in
  let claims2 : gmap string jvalue := {[ "scope" := JNull; "scopes" := JString "guest" ]} in
  is_Some (claims1 !! "scope")
  /\ claims1 !! "scope" = claims2 !! "scope"
  /\ parseClaimScopes (Some (token_with claims1)) = Ok ({[ "admin" := true ]}, ["admin"])
  /\ parseClaimScopes (Some (token_with claims2)) = Ok ({[ "guest" := true ]}, ["guest"])
  /\ parseClaimScopes (Some (token_with claims1)) <> parseClaimScopes (Some (token_with claims2))
  /\ parseClaimScopes (Some (token_with {[ "scope" := JArray [JNumber "1"; JString "read"] ]}))
     = Ok ({[ "read" := true ]}, ["read"]).
Proof.
  cbv zeta. repeat split.
  - eexists. reflexivity.
  - vm_compute. intros H. discriminate H.
Qed.

(** ** Properties of the design engine *)
Module DesignFacts.

Import Design.

Lemma run_resource_calls_name body r :
  res_Name (foldl run_resource_call r body) = res_Name r.
Proof.
  revert r; induction body as [|c body IH]; intros r; [reflexivity|].
  cbn [foldl]. rewrite IH. destruct c; reflexivity.
Qed.

Lemma find_resource_app name l1 l2 :
  find_resource name (l1 ++ l2)%list =
  match find_resource name l1 with
  | Some r => Some r
  | None => find_resource name l2
  end.
Proof. unfold find_resource. apply find_app. Qed.

Lemma find_resource_none_names name l :
  find_resource name l = None -> ~ List.In name (List.map res_Name l).
Proof.
  unfold find_resource. intros Hf Hin.
  apply List.in_map_iff in Hin as (r & Hr & Hin).
  pose proof (List.find_none _ _ Hf r Hin) as H. cbn in H.
  rewrite Hr, String.eqb_refl in H. discriminate.
Qed.

(** Declarations keep the names of resources unique and record duplicate
    definitions only. *)
Lemma declare_invariant st d :
  List.NoDup (List.map res_Name (Resources st)) -> only_duplicates (Errors st) ->
  List.NoDup (List.map res_Name (Resources (declare st d)))
  /\ only_duplicates (Errors (declare st d)).
Proof.
  intros Hnd Herr. destruct d as [name dsl|name dsl]; cbn [declare].
  - unfold API. destruct (Design st); cbn; split; try assumption.
    intros e Hin. apply List.in_app_or in Hin as [Hin|[<-|[]]]; eauto.
  - unfold Resource. destruct (find_resource name (Resources st)) eqn:Hf; cbn.
    + split; [assumption|].
      intros e Hin. apply List.in_app_or in Hin as [Hin|[<-|[]]]; eauto.
    + split; [|assumption].
      rewrite List.map_app. cbn [List.map]. rewrite run_resource_calls_name. cbn.
      apply NoDup_ListNoDup, NoDup_app.
      split; [apply NoDup_ListNoDup; assumption|]. split; [|apply NoDup_singleton].
      intros x Hx Hin. apply list_elem_of_singleton in Hin as ->.
      apply list_elem_of_In in Hx. exact (find_resource_none_names _ _ Hf Hx).
Qed.

Lemma build_invariant design st :
  List.NoDup (List.map res_Name (Resources st)) -> only_duplicates (Errors st) ->
  List.NoDup (List.map res_Name (Resources (foldl declare st design)))
  /\ only_duplicates (Errors (foldl declare st design)).
Proof.
  revert st; induction design as [|d design IH]; intros st Hnd Herr; [auto|].
  cbn [foldl]. destruct (declare_invariant st d Hnd Herr). apply IH; assumption.
Qed.

Lemma Reset_invariant :
  List.NoDup (List.map res_Name (Resources Reset)) /\ only_duplicates (Errors Reset).
Proof. split; [constructor|intros e []]. Qed.

Lemma same_name_same_resource (l : list ResourceDefinition) r1 r2 :
  List.NoDup (List.map res_Name l) -> List.In r1 l -> List.In r2 l ->
  res_Name r1 = res_Name r2 -> r1 = r2.
Proof.
  induction l as [|r l IH]; [intros _ []|].
  cbn [List.map]. intros Hnd H1 H2 Hn. apply List.NoDup_cons_iff in Hnd as [Hnot Hnd].
  destruct H1 as [<-|H1], H2 as [<-|H2]; try reflexivity.
  - exfalso. apply Hnot. rewrite Hn. apply List.in_map. exact H2.
  - exfalso. apply Hnot. rewrite <- Hn. apply List.in_map. exact H1.
  - apply IH; assumption.
Qed.

Lemma Finalize_names api l :
  List.map res_Name (List.map (Finalize api) l) = List.map res_Name l.
Proof. rewrite List.map_map. reflexivity. Qed.

(** The errors of [Validate] that are conflicts are those of the conflict
    rule. *)
Lemma Validate_conflict api resources r name w :
  List.In (ParamConflict name w) (Validate api resources r) <->
  List.In (ParamConflict name w) (param_conflicts api r).
Proof.
  unfold Validate. split.
  - intros H.
    repeat (apply List.in_app_or in H as [H|H]); try exact H; exfalso.
    + destruct (String.eqb (res_Name r) EmptyString);
        [destruct H as [H|[]]; discriminate H|destruct H].
    + destruct (String.eqb (res_ParentName r) EmptyString); [destruct H|].
      destruct (find_resource _ _); [destruct H|destruct H as [H|[]]; discriminate H].
    + destruct (String.eqb (res_CanonicalActionName r) EmptyString); [destruct H|].
      destruct (bool_decide _); [destruct H|destruct H as [H|[]]; discriminate H].
    + unfold uncovered_placeholders in H.
      apply List.in_flat_map in H as (x & _ & H).
      destruct (res_Params r !! x), (api_params api !! x);
        try destruct H as [H|[]]; try discriminate H; destruct H.
    + induction (res_Actions r) as [|a rest IH]; [destruct H|].
      cbn [duplicate_actions] in H. apply List.in_app_or in H as [H|H]; [|auto].
      destruct (bool_decide _); [destruct H as [H|[]]; discriminate H|destruct H].
  - intros H. do 4 (apply List.in_or_app; right). apply List.in_or_app. left. exact H.
Qed.

Lemma param_conflicts_spec api r name w :
  List.In (ParamConflict name w) (param_conflicts api r) <->
  (IsAbsolute (res_BasePath r) = false /\ name = res_Name r /\
   List.In w (ExtractWildcards (res_BasePath r)) /\
   List.In w (api_wildcards api) /\
   api_params api !! w <> res_Params r !! w).
Proof.
  unfold param_conflicts. destruct (IsAbsolute (res_BasePath r)).
  - split; [intros []|intros [H _]; discriminate H].
  - rewrite List.in_flat_map. split.
    + intros (x & Hx & H).
      destruct (bool_decide (x ∈ api_wildcards api)) eqn:E1; [|destruct H].
      destruct (bool_decide (api_params api !! x = res_Params r !! x)) eqn:E2; [destruct H|].
      destruct H as [[= <- <-]|[]].
      apply bool_decide_eq_true in E1. apply bool_decide_eq_false in E2.
      apply list_elem_of_In in E1. auto.
    + intros (_ & -> & Hw & Ha & Hne). exists w. split; [exact Hw|].
      rewrite (bool_decide_eq_true_2 _ (proj2 (list_elem_of_In _ _) Ha)).
      rewrite (bool_decide_eq_false_2 _ Hne). left. reflexivity.
Qed.

Lemma ValidateAPI_no_conflict a name w : ~ List.In (ParamConflict name w) (ValidateAPI a).
Proof.
  unfold ValidateAPI. intros H. apply List.in_app_or in H as [H|H].
  - destruct (String.eqb (api_Name a) EmptyString);
      [destruct H as [H|[]]; discriminate H|destruct H].
  - apply List.in_flat_map in H as (x & _ & H).
    destruct (api_Params a !! x); [destruct H|destruct H as [H|[]]; discriminate H].
Qed.

(** C8. In every design whose API base path and whose resource base path
    share a placeholder: when both declare it with a different type or a
    different description and the resource base path is not absolute, [Run]
    records the [ParamConflict] of that resource and placeholder; when the
    resource base path is absolute, [Run] records no [ParamConflict] for the
    resource, whatever the resource declares. *)
Theorem base_param_conflict (design : list declaration) (a : APIDefinition)
    (r : ResourceDefinition) (w : string) :
  let st := Run (build design) in
  Design st = Some a ->
  List.In r (Resources st) ->
  List.In w (ExtractWildcards (api_BasePath a)) ->
  List.In w (ExtractWildcards (res_BasePath r)) ->
  (forall d1 d2,
      api_Params a !! w = Some d1 -> res_Params r !! w = Some d2 ->
      attr_Type d1 <> attr_Type d2 \/ attr_Description d1 <> attr_Description d2 ->
      IsAbsolute (res_BasePath r) = false ->
      List.In (ParamConflict (res_Name r) w) (Errors st))
  /\ (IsAbsolute (res_BasePath r) = true ->
      forall w', ~ List.In (ParamConflict (res_Name r) w') (Errors st)).
Proof.
  intros st Ha Hr Hwa Hwr. subst st. unfold Run in *. cbn [Design Resources Errors] in *.
  set (s0 := build design) in *.
  destruct (build_invariant design Reset (proj1 Reset_invariant) (proj2 Reset_invariant))
    as [Hnd Hdup]. fold (build design) in Hnd, Hdup. fold s0 in Hnd, Hdup.
  rewrite Ha in Hr |- *. split.
  - intros d1 d2 H1 H2 Hdiff Habs.
    apply List.in_or_app. right. apply List.in_or_app. right.
    apply List.in_flat_map. exists r. split; [exact Hr|].
    apply Validate_conflict, param_conflicts_spec. cbn [api_wildcards api_params].
    repeat split; try assumption.
    rewrite H1, H2. intros [= ->]. destruct Hdiff as [H|H]; apply H; reflexivity.
  - intros Habs w' Hin.
    apply List.in_app_or in Hin as [Hin|Hin].
    + destruct (Hdup _ Hin) as (kind & name & H). discriminate H.
    + apply List.in_app_or in Hin as [Hin|Hin].
      * exact (ValidateAPI_no_conflict _ _ _ Hin).
      * apply List.in_flat_map in Hin as (r' & Hr' & Hin).
        apply Validate_conflict, param_conflicts_spec in Hin as (Hrel & Hname & _).
        assert (r = r').
        { apply (same_name_same_resource (List.map (Finalize (Some a)) (Resources s0)));
            [rewrite Finalize_names; exact Hnd|exact Hr|exact Hr'|exact Hname]. }
        subst r'. congruence.
Qed.

(** Scenario 3 with the resource declaring [accountID] as a string. *)
Lemma base_param_conflict_witness :
  List.In (ParamConflict "foo" "accountID") (Errors (Run (build conflicting_design))).
Proof.
  refine (proj1 (base_param_conflict conflicting_design
                   (mkAPI "foo" EmptyString EmptyString EmptyString "/:accountID/:id"
                      (add_params [Param "accountID" Integer "the account ID";
                                   Param "id" Design.String "the widget ID"] ∅))
                   (mkResource "foo" EmptyString EmptyString "/:accountID"
                      (add_params [Param "accountID" Design.String "the account ID"] ∅)
                      "text/plain" EmptyString EmptyString [] "/:accountID/:id/:accountID")
                   "accountID" _ _ _ _)
            (mkAttribute Integer "the account ID")
            (mkAttribute Design.String "the account ID") _ _ _ _).
  - vm_compute. reflexivity.
  - vm_compute. left. reflexivity.
  - vm_compute. left. reflexivity.
  - vm_compute. left. reflexivity.
  - vm_compute. reflexivity.
  - vm_compute. reflexivity.
  - left. discriminate.
  - vm_compute. reflexivity.
Defined.

Lemma declare_keeps_absent name st d :
  find_resource name (Resources st) = None ->
  (forall dsl, d <> DeclareResource name dsl) ->
  find_resource name (Resources (declare st d)) = None.
Proof.
  intros Hf Hd. destruct d as [n dsl|n dsl]; cbn [declare].
  - unfold API. destruct (Design st); exact Hf.
  - unfold Resource. destruct (find_resource n (Resources st)); cbn [Resources]; [exact Hf|].
    rewrite find_resource_app, Hf. unfold find_resource. cbn [List.find].
    rewrite run_resource_calls_name. cbn [res_Name NewResourceDefinition].
    destruct (String.eqb n name) eqn:E; [|reflexivity].
    apply String.eqb_eq in E. subst n. exfalso. exact (Hd dsl eq_refl).
Qed.

Lemma build_keeps_absent name design st :
  find_resource name (Resources st) = None ->
  (forall dsl, ~ List.In (DeclareResource name dsl) design) ->
  find_resource name (Resources (foldl declare st design)) = None.
Proof.
  revert st; induction design as [|d design IH]; intros st Hf Hd; [exact Hf|].
  cbn [foldl]. apply IH.
  - apply declare_keeps_absent; [exact Hf|].
    intros dsl ->. apply (Hd dsl). left. reflexivity.
  - intros dsl Hin. apply (Hd dsl). right. exact Hin.
Qed.

Lemma declare_keeps_found name st d r :
  find_resource name (Resources st) = Some r ->
  find_resource name (Resources (declare st d)) = Some r.
Proof.
  intros Hf. destruct d as [n dsl|n dsl]; cbn [declare].
  - unfold API. destruct (Design st); exact Hf.
  - unfold Resource. destruct (find_resource n (Resources st)); cbn [Resources]; [exact Hf|].
    rewrite find_resource_app, Hf. reflexivity.
Qed.

Lemma build_keeps_found name design st r :
  find_resource name (Resources st) = Some r ->
  find_resource name (Resources (foldl declare st design)) = Some r.
Proof.
  revert st; induction design as [|d design IH]; intros st Hf; [exact Hf|].
  cbn [foldl]. apply IH, declare_keeps_found, Hf.
Qed.

Lemma find_resource_Finalize name api l :
  find_resource name (List.map (Finalize api) l)
  = option_map (Finalize api) (find_resource name l).
Proof.
  unfold find_resource. induction l as [|r l IH]; [reflexivity|].
  cbn [List.map List.find]. cbn [res_Name Finalize].
  destruct (String.eqb (res_Name r) name); [reflexivity|exact IH].
Qed.

(** C9. A resource declared with a name that is not empty and without a
    body, anywhere in a design that has not declared the name before, is
    found after [Run], validates without error, and has the default media
    type [text/plain]. *)
Theorem resource_without_dsl (design1 design2 : list declaration) (name : string) :
  name <> EmptyString ->
  (forall dsl, ~ List.In (DeclareResource name dsl) design1) ->
  let st := Run (build (design1 ++ DeclareResource name None :: design2)) in
  exists r,
    find_resource name (Resources st) = Some r
    /\ Validate (Design st) (Resources st) r = []
    /\ res_MediaType r = "text/plain".
Proof.
  intros Hname Hfresh st. subst st. unfold build. rewrite foldl_app. cbn [foldl].
  set (s1 := foldl declare Reset design1).
  assert (H1 : find_resource name (Resources s1) = None)
    by (apply build_keeps_absent; [reflexivity|exact Hfresh]).
  assert (H2 : find_resource name (Resources (declare s1 (DeclareResource name None)))
               = Some (NewResourceDefinition name)).
  { cbn [declare]. unfold Resource. rewrite H1. cbn [Resources calls foldl].
    rewrite find_resource_app, H1. unfold find_resource. cbn [List.find].
    cbn [res_Name NewResourceDefinition]. rewrite String.eqb_refl. reflexivity. }
  apply (build_keeps_found name design2) in H2.
  set (s2 := foldl declare (declare s1 (DeclareResource name None)) design2) in *.
  exists (Finalize (Design s2) (NewResourceDefinition name)).
  unfold Run. cbn [Design Resources]. split; [|split].
  - rewrite find_resource_Finalize, H2. reflexivity.
  - unfold Validate, uncovered_placeholders, param_conflicts.
    cbn [Finalize NewResourceDefinition res_Name res_ParentName res_CanonicalActionName
         res_BasePath res_Params res_Actions duplicate_actions].
    apply String.eqb_neq in Hname. rewrite Hname. reflexivity.
  - reflexivity.
Qed.

(** The context "with no dsl" of the resource test-suite. *)
Lemma resource_without_dsl_witness :
  exists r,
    find_resource "foo" (Resources (Run (build [DeclareResource "foo" None]))) = Some r
    /\ Validate None (Resources (Run (build [DeclareResource "foo" None]))) r = []
    /\ res_MediaType r = "text/plain".
Proof.
  apply (resource_without_dsl [] [] "foo"); [discriminate|intros dsl []].
Defined.

End DesignFacts.

(** ** Further properties of the middleware *)

(** *** Extraction *)

Lemma up_to_app tok suffix :
  has_byte space tok = false ->
  suffix = EmptyString \/ (exists s, suffix = String space s) ->
  up_to space (tok ++ suffix) = tok.
Proof.
  intros Htok Hsuf. induction tok as [|c tok IH].
  - destruct Hsuf as [->|[s ->]]; reflexivity.
  - cbn [has_byte] in Htok. apply orb_false_iff in Htok as [Hc Htok].
    change (String c tok ++ suffix) with (String c (tok ++ suffix)).
    cbn [up_to]. rewrite Hc, (IH Htok). reflexivity.
Qed.

(** Whatever the case of the letters of the prefix, a token without a space
    that follows it, alone or followed by a space and more text, is
    extracted as it is. *)
Theorem header_round_trip (X : Extern) (scheme : JWTSecurity) (req : Request)
    (p tok suffix : string) :
  In scheme = LocHeader X ->
  ToLower p = "bearer " ->
  has_byte space tok = false ->
  suffix = EmptyString \/ (exists s, suffix = String space s) ->
  Header_Get X req (Name scheme) = p ++ tok ++ suffix ->
  extractToken X scheme req = Ok tok.
Proof.
  intros Hin Hp Htok Hsuf Hval. unfold extractToken. rewrite Hin, String.eqb_refl.
  destruct (extractTokenFromHeader_cases X (Name scheme) req) as [[Hno _]|[_ ->]].
  - exfalso. rewrite Hval, ToLower_app, Hp in Hno.
    unfold HasPrefix in Hno. rewrite app_prefix in Hno. discriminate.
  - rewrite Hval. f_equal.
    assert (Hlen : String.length p = 7%nat)
      by (rewrite <- ToLower_length, Hp; reflexivity).
    rewrite <- Hlen, drop_bytes_app. apply up_to_app; assumption.
Qed.

Lemma header_round_trip_witness :
  extractToken demo_extern demo_scheme (demo_request "BeArEr x.y.z and more") = Ok "x.y.z".
Proof.
  apply (header_round_trip demo_extern demo_scheme _ "BeArEr " "x.y.z" " and more");
    [reflexivity | reflexivity | reflexivity | right; eexists; reflexivity
    | vm_compute; reflexivity].
Defined.

(** When [scheme.In] is the query location (and not the header one, which
    is tested first), extraction fails exactly when the parameter is missing
    or empty, with the [jwt_security_error] of status 401 naming the
    parameter, and otherwise returns the value of the parameter unchanged: no
    prefix is expected or removed and spaces are kept. *)
Theorem query_extraction (X : Extern) (scheme : JWTSecurity) (req : Request) :
  In scheme <> LocHeader X ->
  In scheme = LocQuery X ->
  let val := Query_Get req (Name scheme) in
  (val = EmptyString ->
   extractToken X scheme req
   = Err (ErrorResponse "jwt_security_error" 401
            ("missing parameter " ++ Quote X (Name scheme)) ∅))
  /\ (val <> EmptyString -> extractToken X scheme req = Ok val).
Proof.
  intros Hh Hq val. unfold extractToken.
  apply String.eqb_neq in Hh. rewrite Hh, Hq, String.eqb_refl.
  unfold extractTokenFromQueryParam. fold val. split.
  - intros ->. reflexivity.
  - intros Hne. apply String.eqb_neq in Hne. rewrite Hne. reflexivity.
Qed.

Lemma query_extraction_witness :
  extractToken demo_extern (mkScheme "query" "access_token")
    (mkRequest ∅ {[ "access_token" := ["Bearer x.y.z"] ]})
  = Ok "Bearer x.y.z".
Proof.
  refine (proj2 (query_extraction demo_extern (mkScheme "query" "access_token")
                   (mkRequest ∅ {[ "access_token" := ["Bearer x.y.z"] ]}) _ _) _).
  - vm_compute. discriminate.
  - reflexivity.
  - vm_compute. discriminate.
Defined.

Lemma New_extraction_failed (X : Extern) validationKeys
    (validationFunc : option (Middleware X)) scheme (nextHandler : Handler X) ctx rw req e :
  extractToken X scheme req = Err e ->
  New X validationKeys validationFunc scheme nextHandler ctx rw req = Err e.
Proof.
  intros He. unfold New. destruct (partitionKeys validationKeys) as [[r k] h].
  unfold handle, handle_call. rewrite He. reflexivity.
Qed.

(** A failed extraction ends the handler with the error of the extraction
    itself, whatever the keys, the hook and the next handler; for a location
    that is neither the header nor the query one this error is a plain error,
    not the [jwt_security_error] of status 401. *)
Theorem extraction_failure_short_circuits (X : Extern) (validationKeys : keys_value)
    (validationFunc : option (Middleware X)) (scheme : JWTSecurity)
    (nextHandler : Handler X) (ctx : Context) (rw : ResponseWriter X) (req : Request) :
  (forall e, extractToken X scheme req = Err e ->
     New X validationKeys validationFunc scheme nextHandler ctx rw req = Err e)
  /\ (In scheme <> LocHeader X -> In scheme <> LocQuery X ->
      New X validationKeys validationFunc scheme nextHandler ctx rw req
      = Err (Errorf ("whoops, security scheme with location (in) "
                     ++ Quote X (In scheme) ++ " not supported"))).
Proof.
  split; [intros e; apply New_extraction_failed|].
  intros Hh Hq. apply New_extraction_failed. unfold extractToken.
  apply String.eqb_neq in Hh, Hq. rewrite Hh, Hq. reflexivity.
Qed.

Lemma extraction_failure_short_circuits_witness :
  New demo_extern (VString "secret") None (mkScheme "cookie" "jwt") demo_next
      (mkContext [] None) tt (demo_request "Bearer x.y.z")
  = Err (Errorf ("whoops, security scheme with location (in) "
                 ++ Quote demo_extern "cookie" ++ " not supported")).
Proof.
  apply (extraction_failure_short_circuits demo_extern (VString "secret") None
           (mkScheme "cookie" "jwt") demo_next (mkContext [] None) tt
           (demo_request "Bearer x.y.z")); vm_compute; discriminate.
Defined.

(** *** Keys *)

Lemma foldl_snoc {A : Type} (l acc : list A) :
  foldl (fun keys s => (keys ++ [s])%list) acc l = (acc ++ l)%list.
Proof.
  revert acc; induction l as [|x l IH]; intros acc; cbn [foldl].
  - now rewrite app_nil_r.
  - rewrite IH, <- app_assoc. reflexivity.
Qed.

(** [partitionKeys] fills one bucket at most; the strings of a list become
    the HMAC keys in the same order, duplicates kept; and a string gives the
    same buckets as its bytes, hence the same middleware. *)
Theorem partitionKeys_buckets (X : Extern) (validationKeys : keys_value) :
  (let '(rsaKeys, ecdsaKeys, hmacKeys) := partitionKeys validationKeys in
   (rsaKeys = [] /\ ecdsaKeys = []) \/ (rsaKeys = [] /\ hmacKeys = [])
   \/ (ecdsaKeys = [] /\ hmacKeys = []))
  /\ (forall ss, partitionKeys (VStringList ss) = ([], [], ss))
  /\ (forall s validationFunc scheme,
        New X (VString s) validationFunc scheme = New X (VBytes s) validationFunc scheme
        /\ New X (VString s) validationFunc scheme
           = New X (VStringList [s]) validationFunc scheme).
Proof.
  split; [|split].
  - destruct validationKeys; cbn; auto.
  - intros ss. cbn [partitionKeys]. now rewrite foldl_snoc.
  - intros s vf scheme. split; reflexivity.
Qed.

(** *** Panics *)

Section NoPanic.

Variable X : Extern.

Lemma attempt_no_error algo key tok :
  snd (attempt X algo key tok) = None ->
  exists t0, ParseUnverified X tok = inr t0
             /\ attempt X algo key tok
                = (Some (mkToken (Raw t0) (Alg t0) (TokenClaims t0) true), None).
Proof.
  intros H.
  destruct (attempt_cases X algo key tok) as [(t & Hd & _ & _ & Hr)|(t & e & Hr & _)].
  - eauto.
  - rewrite Hr in H. discriminate H.
Qed.

(** With a key configured, a verification without error returns a token,
    and this token is the decoded incoming token marked valid. *)
Lemma verifyToken_no_error rsaKeys ecdsaKeys hmacKeys tok :
  (rsaKeys, ecdsaKeys, hmacKeys) <> ([], [], []) ->
  snd (verifyToken X rsaKeys ecdsaKeys hmacKeys tok) = None ->
  exists t0, ParseUnverified X tok = inr t0
             /\ verifyToken X rsaKeys ecdsaKeys hmacKeys tok
                = (Some (mkToken (Raw t0) (Alg t0) (TokenClaims t0) true), None).
Proof.
  intros Hkeys Hs.
  pose proof (attempts_nonempty X _ _ _ tok Hkeys) as Hne.
  rewrite (verifyToken_find X _ _ _ _ Hne) in Hs |- *.
  set (tries := attempts X rsaKeys ecdsaKeys hmacKeys tok) in *.
  assert (Hall : forall r, List.In r tries -> snd r = None ->
            exists t0, ParseUnverified X tok = inr t0
                       /\ r = (Some (mkToken (Raw t0) (Alg t0) (TokenClaims t0) true), None)).
  { intros r Hin Hr. subst tries. unfold attempts in Hin.
    apply List.in_app_or in Hin as [Hin|Hin];
      [|apply List.in_app_or in Hin as [Hin|Hin]];
      apply List.in_map_iff in Hin as (k & <- & _); apply attempt_no_error; exact Hr. }
  destruct (List.find succeeded tries) as [r|] eqn:Hf.
  - apply Hall; [|exact Hs]. apply List.find_some in Hf. apply Hf.
  - pose proof (find_none_last succeeded tries (None, None) Hne Hf) as Hl.
    unfold succeeded in Hl. rewrite Hs in Hl. discriminate Hl.
Qed.

End NoPanic.

(** With at least one key configured, every request that the handler built
    by [New] serves, after whatever requests it served before, ends in one of
    two ways: the handler returns an error, or it runs the handler its
    captured variable holds (inside the hook when there is one) on the context
    that carries the decoded incoming token, marked valid. The scheme and the
    keys are values here, not nil pointers. *)
Theorem configured_keys_outcomes (X : Extern) (validationKeys : keys_value)
    (validationFunc : option (Middleware X)) (scheme : JWTSecurity)
    (nextHandler : Handler X) (history : list (served_request X))
    (ctx : Context) (rw : ResponseWriter X) (req : Request) :
  partitionKeys validationKeys <> ([], [], []) ->
  (exists e, serve X validationKeys validationFunc scheme nextHandler history ctx rw req
             = Err e)
  \/ (exists tok t0,
        extractToken X scheme req = Ok tok
        /\ ParseUnverified X tok = inr t0
        /\ serve X validationKeys validationFunc scheme nextHandler history ctx rw req
           = wrapped X validationFunc
               (captured X validationKeys validationFunc scheme nextHandler history)
               (WithJWT ctx (Some (mkToken (Raw t0) (Alg t0) (TokenClaims t0) true)))
               rw req).
Proof.
  intros Hkeys. unfold serve.
  set (cur := captured X validationKeys validationFunc scheme nextHandler history).
  destruct (extractToken X scheme req) as [tok|e|] eqn:Hex.
  - destruct (verifyWith X validationKeys tok) as [token err] eqn:Hv.
    destruct err as [e|].
    + left. eexists. unfold verifyWith in Hv.
      destruct (partitionKeys validationKeys) as [[r k] h] eqn:Hp.
      rewrite (New_handle X _ _ _ _ _ _ Hp).
      eapply handle_rejects_unverified; eassumption.
    + assert (Ht : exists t0, ParseUnverified X tok = inr t0 /\
                 token = Some (mkToken (Raw t0) (Alg t0) (TokenClaims t0) true)).
      { unfold verifyWith in Hv.
        destruct (partitionKeys validationKeys) as [[r k] h].
        destruct (verifyToken_no_error X r k h tok Hkeys) as (t0 & Hd & Hr).
        - rewrite Hv. reflexivity.
        - exists t0. split; [exact Hd|]. rewrite Hv in Hr. congruence. }
      destruct Ht as (t0 & Hd & ->).
      rewrite (New_verified X _ validationFunc _ cur ctx rw _ _ _ Hex Hv).
      destruct (parseClaimScopes _) as [[m l]|e|] eqn:Hp.
      * destruct (forallb _ _); [right; eauto|left; eauto].
      * left. eauto.
      * exfalso. unfold parseClaimScopes in Hp. cbn [TokenClaims] in Hp.
        destruct (TokenClaims t0) as [claims|]; [|discriminate Hp].
        destruct (scan_claims _ _ _) as [[m l]|e|] eqn:Hs; try discriminate Hp.
        clear -Hs. unfold validScopeClaimKeys in Hs. cbn [scan_claims] in Hs.
        repeat match type of Hs with
               | context [match ?x with _ => _ end] => destruct x; try discriminate Hs
               end.
  - left. exists e. apply New_extraction_failed. exact Hex.
  - exfalso. unfold extractToken in Hex.
    destruct (String.eqb (In scheme) (LocHeader X)).
    + destruct (extractTokenFromHeader_cases X (Name scheme) req)
        as [[_ [d Hr]]|[_ Hr]]; rewrite Hr in Hex; discriminate Hex.
    + destruct (String.eqb (In scheme) (LocQuery X)); [|discriminate Hex].
      unfold extractTokenFromQueryParam in Hex.
      destruct (String.eqb _ _); discriminate Hex.
Qed.

Lemma configured_keys_outcomes_witness :
  (exists e, serve demo_extern (VStringList ["retired"; "secret"]) None demo_scheme
               demo_next [] (mkContext ["api:read"] None) tt
               (demo_request "Bearer x.y.z") = Err e)
  \/ (exists tok t0,
        extractToken demo_extern demo_scheme (demo_request "Bearer x.y.z") = Ok tok
        /\ ParseUnverified demo_extern tok = inr t0
        /\ serve demo_extern (VStringList ["retired"; "secret"]) None demo_scheme
             demo_next [] (mkContext ["api:read"] None) tt (demo_request "Bearer x.y.z")
           = wrapped demo_extern None
               (captured demo_extern (VStringList ["retired"; "secret"]) None
                  demo_scheme demo_next [])
               (WithJWT (mkContext ["api:read"] None)
                  (Some (mkToken (Raw t0) (Alg t0) (TokenClaims t0) true)))
               tt (demo_request "Bearer x.y.z")).
Proof.
  apply (configured_keys_outcomes demo_extern (VStringList ["retired"; "secret"])).
  vm_compute. discriminate.
Defined.

(** The validation hook is nested once more by every admitted request: a
    request that is admitted leaves the captured variable holding its former
    value inside the hook, any other request leaves it as it was; after a
    history the variable holds the first handler inside the hook nested once
    per admitted request, and the first handler itself when no hook is
    given. *)
Theorem hook_nested_once_per_admission (X : Extern) (validationKeys : keys_value)
    (validationFunc : option (Middleware X)) (scheme : JWTSecurity)
    (nextHandler : Handler X) (history : list (served_request X))
    (r : served_request X) :
  captured X validationKeys validationFunc scheme nextHandler (history ++ [r])%list
  = (if admitted X validationKeys scheme r
     then wrapped X validationFunc
            (captured X validationKeys validationFunc scheme nextHandler history)
     else captured X validationKeys validationFunc scheme nextHandler history)
  /\ captured X validationKeys validationFunc scheme nextHandler history
     = match validationFunc with
       | Some f => Nat.iter (admissions X validationKeys scheme history) f nextHandler
       | None => nextHandler
       end.
Proof.
  split; [|apply captured_admissions].
  unfold captured at 1. rewrite foldl_app. cbn [foldl].
  destruct r as [[ctx rw] req]. cbn [fst snd]. apply New_captured_admitted.
Qed.

(** One handler with the hook that consumes the token, and the request of
    scenario 6 twice: the first is served, the second is refused by the hook
    nested in the hook. *)
Lemma hook_nested_once_per_admission_witness :
  serve demo_extern (VString "secret") (Some consuming_hook) demo_scheme demo_next
    [] (mkContext ["api:read"] None) tt (demo_request "Bearer x.y.z")
  = Ok tt
  /\ serve demo_extern (VString "secret") (Some consuming_hook) demo_scheme demo_next
       [(mkContext ["api:read"] None, tt, demo_request "Bearer x.y.z")]
       (mkContext ["api:read"] None) tt (demo_request "Bearer x.y.z")
     = Err (Errorf "token already consumed").
Proof.
  split; unfold serve;
    rewrite (proj2 (hook_nested_once_per_admission demo_extern (VString "secret")
                      (Some consuming_hook) demo_scheme demo_next _
                      (mkContext [] None, tt, demo_request EmptyString)));
    vm_compute; reflexivity.
Defined.

(** The key values that leave the three buckets empty are the values of an
    unrecognised type and the empty lists of keys; with any of them, a
    request whose token is extracted makes the handler panic, whatever the
    token, the hook and the next handler. *)
Theorem empty_key_set_panics (X : Extern) (validationKeys : keys_value)
    (validationFunc : option (Middleware X)) (scheme : JWTSecurity)
    (nextHandler : Handler X) (ctx : Context) (rw : ResponseWriter X) (req : Request)
    (tok : string) :
  (partitionKeys validationKeys = ([], [], []) <->
   match validationKeys with
   | VBytesList [] | VStringList [] | VRSAList [] | VECDSAList [] | VOther _ => True
   | _ => False
   end)
  /\ (partitionKeys validationKeys = ([], [], []) ->
      extractToken X scheme req = Ok tok ->
      New X validationKeys validationFunc scheme nextHandler ctx rw req = Crash).
Proof.
  split.
  - destruct validationKeys as [k|ks|s|ss|k|ks|k|ks|ty]; cbn [partitionKeys];
      try (split; [discriminate|contradiction]);
      try (destruct ks; split; first [discriminate|contradiction|reflexivity|trivial]).
    + rewrite foldl_snoc. cbn [app].
      destruct ss; split; first [discriminate|contradiction|reflexivity|trivial].
    + split; trivial.
  - intros Hp Hex.
    rewrite (New_verified X _ validationFunc _ nextHandler ctx rw _ tok None Hex);
      [reflexivity|]. unfold verifyWith. rewrite Hp. reflexivity.
Qed.

Lemma empty_key_set_panics_witness :
  New demo_extern (VStringList []) None demo_scheme demo_next
      (mkContext [] None) tt (demo_request "Bearer x.y.z") = Crash.
Proof.
  apply (proj2 (empty_key_set_panics demo_extern (VStringList []) None demo_scheme
                  demo_next (mkContext [] None) tt (demo_request "Bearer x.y.z") "x.y.z"));
    vm_compute; reflexivity.
Defined.

(** When every configured key fails, the result of the verification step is
    that of the last try in the order RSA keys, ECDSA keys, HMAC keys: the
    error reported to the client is the error of the last key. *)
Theorem rejection_reports_last_key (X : Extern)
    (rsaKeys : list rsa_PublicKey) (ecdsaKeys : list ecdsa_PublicKey)
    (hmacKeys : list string) (tok : string) :
  (rsaKeys, ecdsaKeys, hmacKeys) <> ([], [], []) ->
  (forall r, List.In r (attempts X rsaKeys ecdsaKeys hmacKeys tok) -> snd r <> None) ->
  verifyToken X rsaKeys ecdsaKeys hmacKeys tok
  = List.last (attempts X rsaKeys ecdsaKeys hmacKeys tok) (None, None)
  /\ exists e, snd (verifyToken X rsaKeys ecdsaKeys hmacKeys tok) = Some e.
Proof.
  intros Hkeys Hall.
  pose proof (attempts_nonempty X _ _ _ tok Hkeys) as Hne.
  rewrite (verifyToken_find X _ _ _ _ Hne).
  destruct (List.find succeeded _) as [r|] eqn:Hf.
  - apply List.find_some in Hf as [Hin Hs]. exfalso. apply (Hall r Hin).
    unfold succeeded in Hs. destruct (snd r); [discriminate|reflexivity].
  - split; [reflexivity|].
    pose proof (find_none_last succeeded _ (None, None) Hne Hf) as Hl.
    unfold succeeded in Hl. destruct (snd (List.last _ _)); [eauto|discriminate].
Qed.

Lemma rejection_reports_last_key_witness :
  verifyToken demo_extern [] [] ["retired"; "revoked"] "x.y.z"
  = attempt demo_extern "HS" (HMACKey "revoked") "x.y.z".
Proof.
  refine (proj1 (rejection_reports_last_key demo_extern [] [] ["retired"; "revoked"]
                   "x.y.z" _ _)).
  - vm_compute. congruence.
  - vm_compute. intros r [<-|[<-|[]]]; discriminate.
Defined.

(** *** Scopes *)

Lemma insert_sorted_In x l s : List.In s (insert_sorted x l) <-> s = x \/ List.In s l.
Proof.
  induction l as [|y l IH]; cbn [insert_sorted].
  - cbn. intuition.
  - destruct (String.leb x y); cbn [List.In]; [intuition|]. rewrite IH. intuition.
Qed.

Lemma sort_Strings_In l s : List.In s (sort_Strings l) <-> List.In s l.
Proof.
  unfold sort_Strings. induction l as [|x l IH]; cbn [foldr]; [reflexivity|].
  rewrite insert_sorted_In, IH. cbn. intuition.
Qed.

Lemma insert_sorted_length x l : length (insert_sorted x l) = S (length l).
Proof.
  induction l as [|y l IH]; cbn [insert_sorted]; [reflexivity|].
  destruct (String.leb x y); cbn [length]; [reflexivity|now rewrite IH].
Qed.

Lemma sort_Strings_length l : length (sort_Strings l) = length l.
Proof.
  unfold sort_Strings. induction l as [|x l IH]; cbn [foldr]; [reflexivity|].
  rewrite insert_sorted_length, IH. reflexivity.
Qed.

Lemma insert_sorted_Sorted x l :
  Sorted (fun a b => String.leb a b = true) l ->
  Sorted (fun a b => String.leb a b = true) (insert_sorted x l).
Proof.
  induction l as [|y l IH]; intros Hs; cbn [insert_sorted].
  - repeat constructor.
  - destruct (String.leb x y) eqn:E.
    + constructor; [exact Hs|]. constructor. exact E.
    + apply Sorted_inv in Hs as [Hs Hhd]. constructor; [exact (IH Hs)|].
      assert (Hyx : String.leb y x = true)
        by (destruct (String.leb_total x y) as [H|H]; [congruence|exact H]).
      destruct l as [|z l]; cbn [insert_sorted].
      * constructor. exact Hyx.
      * destruct (String.leb x z); constructor; [exact Hyx|].
        apply HdRel_inv in Hhd. exact Hhd.
Qed.

Lemma sort_Strings_Sorted l : Sorted (fun a b => String.leb a b = true) (sort_Strings l).
Proof.
  unfold sort_Strings. induction l as [|x l IH]; cbn [foldr]; [constructor|].
  apply insert_sorted_Sorted, IH.
Qed.

Lemma scope_set_values scopes s b : scope_set scopes !! s = Some b -> b = true.
Proof.
  unfold scope_set.
  assert (H : forall (m : gmap string bool),
             (forall b, m !! s = Some b -> b = true) ->
             forall b, foldl (fun m x => <[x := true]> m) m scopes !! s = Some b -> b = true).
  { induction scopes as [|x scopes IH]; intros m Hm b'; cbn [foldl]; [apply Hm|].
    apply IH. intros b''. destruct (decide (x = s)) as [->|Hne].
    - rewrite lookup_insert_eq. congruence.
    - rewrite lookup_insert_ne by exact Hne. apply Hm. }
  apply H. intros b'. rewrite lookup_empty. discriminate.
Qed.

(** The two results of a successful [parseClaimScopes] agree: a scope is
    granted by the map exactly when it occurs in the list; the map holds no
    [false] entry; the list is in ascending byte-wise order; and the claims
    were a [jwt.MapClaims]. *)
Theorem parsed_scopes_consistent (t : Token) (m : gmap string bool) (l : list string) :
  parseClaimScopes (Some t) = Ok (m, l) ->
  (forall scope, default false (m !! scope) = true <-> List.In scope l)
  /\ (forall scope b, m !! scope = Some b -> b = true)
  /\ Sorted (fun a b => String.leb a b = true) l
  /\ exists claims, TokenClaims t = MapClaims claims.
Proof.
  intros H. destruct (TokenClaims t) as [claims|] eqn:Hc;
    [|unfold parseClaimScopes in H; rewrite Hc in H; discriminate H].
  rewrite (parseClaimScopes_found t claims Hc) in H.
  assert (Hscopes : exists scopes, m = scope_set scopes /\ l = sort_Strings scopes).
  { destruct (found_claim claims) as [v|].
    - destruct (presented v) as [scopes|]; [|discriminate H].
      injection H as <- <-. eauto.
    - injection H as <- <-. exists []. split; reflexivity. }
  destruct Hscopes as (scopes & -> & ->). repeat split.
  - intros Hm. apply sort_Strings_In, elem_of_scope_set, Hm.
  - intros Hin. apply elem_of_scope_set, sort_Strings_In, Hin.
  - apply scope_set_values.
  - apply sort_Strings_Sorted.
  - eauto.
Qed.

Lemma parsed_scopes_consistent_witness :
  (forall scope,
      default false (scope_set ["api:write"; "api:read"] !! scope) = true
      <-> List.In scope ["api:read"; "api:write"])
  /\ (forall scope b, scope_set ["api:write"; "api:read"] !! scope = Some b -> b = true)
  /\ Sorted (fun a b => String.leb a b = true) ["api:read"; "api:write"]
  /\ exists claims,
       TokenClaims (token_with {[ "scope" := JString "api:write api:read" ]})
       = MapClaims claims.
Proof.
  exact (parsed_scopes_consistent
           (token_with {[ "scope" := JString "api:write api:read" ]})
           (scope_set ["api:write"; "api:read"]) ["api:read"; "api:write"] eq_refl).
Defined.

(** [parseClaimScopes] fails in two ways only: on claims that are not a
    [jwt.MapClaims], and on a found claim that is a boolean, a number or an
    object; after a verification without error the middleware turns either
    failure into the [jwt_security_error] of status 401 whose detail is the
    message of the failure. *)
Theorem scope_parse_failures (X : Extern) (t : Token) (e : error) :
  parseClaimScopes (Some t) = Err e ->
  ((TokenClaims t = OtherClaims /\ e = Errorf "unsupport claims shape")
   \/ (exists claims v,
         TokenClaims t = MapClaims claims /\ found_claim claims = Some v
         /\ ((exists b, v = JBool b) \/ (exists n, v = JNumber n)
             \/ (exists o, v = JObject o))
         /\ e = Errorf ("unsupported scope format in incoming JWT claim, was type "
                        ++ type_name_of v)))
  /\ forall validationKeys validationFunc scheme nextHandler ctx rw req tok,
       extractToken X scheme req = Ok tok ->
       verifyWith X validationKeys tok = (Some t, None) ->
       New X validationKeys validationFunc scheme nextHandler ctx rw req
       = Err (ErrorResponse "jwt_security_error" 401 (Error X e) ∅).
Proof.
  intros H. split.
  - destruct (TokenClaims t) as [claims|] eqn:Hc.
    + right. rewrite (parseClaimScopes_found t claims Hc) in H.
      exists claims. destruct (found_claim claims) as [v|] eqn:Hf; [|discriminate H].
      exists v. split; [reflexivity|]. split; [reflexivity|].
      destruct v; cbn [presented] in H; try discriminate H;
        injection H as <-; (split; [|reflexivity]); eauto.
      exfalso. unfold found_claim in Hf.
      destruct (claims !! "scope") as [[]|]; try discriminate Hf;
        destruct (claims !! "scopes") as [[]|]; discriminate Hf.
    + left. unfold parseClaimScopes in H. rewrite Hc in H. injection H as <-. auto.
  - intros vk vf scheme next ctx rw req tok Hex Hv.
    rewrite (New_verified X _ vf _ next ctx rw _ _ _ Hex Hv), H. reflexivity.
Qed.

Lemma scope_parse_failures_witness :
  New (table_extern [("n.u.m", token_with {[ "scope" := JNumber "7" ]})] (fun _ _ => true))
      (VString "secret") None demo_scheme (fun _ _ _ => Ok tt)
      (mkContext [] None) tt (demo_request "Bearer n.u.m")
  = Err (ErrorResponse "jwt_security_error" 401
           "unsupported scope format in incoming JWT claim, was type float64" ∅).
Proof.
  refine (proj2 (scope_parse_failures
                   (table_extern [("n.u.m", token_with {[ "scope" := JNumber "7" ]})]
                      (fun _ _ => true))
                   (token_with {[ "scope" := JNumber "7" ]})
                   (Errorf "unsupported scope format in incoming JWT claim, was type float64")
                   _)
            (VString "secret") None demo_scheme (fun _ _ _ => Ok tt)
            (mkContext [] None) tt (demo_request "Bearer n.u.m") "n.u.m" _ _);
    vm_compute; reflexivity.
Defined.

Lemma Split_without_separator s sep : has_byte sep s = false -> Split s sep = [s].
Proof.
  induction s as [|c s IH]; cbn [has_byte Split]; [reflexivity|].
  intros H. apply orb_false_iff in H as [Hc Hs]. rewrite Hc, (IH Hs). reflexivity.
Qed.

(** Splitting at spaces undoes joining with a space, for one or more
    strings that hold no space. *)
Lemma Split_Join elems :
  elems <> [] ->
  Forall (fun s => has_byte space s = false) elems ->
  Split (Join elems (String space EmptyString)) space = elems.
Proof.
  induction elems as [|a rest IH]; [congruence|]. intros _ Hall.
  apply Forall_cons_iff in Hall as [Ha Hrest].
  destruct rest as [|b rest].
  - cbn [Join]. apply Split_without_separator, Ha.
  - change (Join (a :: b :: rest) (String space EmptyString))
      with (a ++ String space (Join (b :: rest) (String space EmptyString))).
    rewrite (Split_app _ _ _ Ha), IH; [reflexivity|discriminate|exact Hrest].
Qed.

Lemma strings_of_JString elems : strings_of (List.map JString elems) = elems.
Proof. induction elems as [|a rest IH]; cbn; [reflexivity|now rewrite IH]. Qed.

(** The two supported formats agree: one or more scopes that hold no space,
    given as one string joined by single spaces or as a list of strings, parse
    to the same scope set and the same scope list. *)
Theorem string_and_list_claims_agree (t1 t2 : Token)
    (claims1 claims2 : gmap string jvalue) (scopes : list string) :
  scopes <> [] ->
  Forall (fun s => has_byte space s = false) scopes ->
  TokenClaims t1 = MapClaims claims1 ->
  TokenClaims t2 = MapClaims claims2 ->
  claims1 !! "scope" = Some (JString (Join scopes (String space EmptyString))) ->
  claims2 !! "scope" = Some (JArray (List.map JString scopes)) ->
  parseClaimScopes (Some t1) = Ok (scope_set scopes, sort_Strings scopes)
  /\ parseClaimScopes (Some t2) = parseClaimScopes (Some t1).
Proof.
  intros Hne Hall H1 H2 Hs1 Hs2.
  rewrite (parseClaimScopes_found t1 claims1 H1), (parseClaimScopes_found t2 claims2 H2).
  unfold found_claim. rewrite Hs1, Hs2. cbn [presented].
  rewrite (Split_Join scopes Hne Hall), strings_of_JString. split; reflexivity.
Qed.

Lemma string_and_list_claims_agree_witness :
  parseClaimScopes (Some (token_with {[ "scope" := JArray [JString "b"; JString "a"] ]}))
  = parseClaimScopes (Some (token_with {[ "scope" := JString "b a" ]})).
Proof.
  refine (proj2 (string_and_list_claims_agree
                   (token_with {[ "scope" := JString "b a" ]})
                   (token_with {[ "scope" := JArray [JString "b"; JString "a"] ]})
                   {[ "scope" := JString "b a" ]}
                   {[ "scope" := JArray [JString "b"; JString "a"] ]}
                   ["b"; "a"] _ _ eq_refl eq_refl eq_refl eq_refl)).
  - discriminate.
  - repeat constructor.
Defined.
